(** * Shallow embedding of the sui-mev arbitrage core

    Rust source under [src/bin/arb/src] and [src/crates/simulator].
    Machine integers are [Z] with their range written out; coin types and
    map keys are [string]; the arbitrage cache uses stdpp's [gmap]. *)

From Stdlib Require Import ZArith Lia List String Bool.
From stdpp Require Import base gmap strings list.

Import ListNotations.
Open Scope Z_scope.

(** ** Common data *)

(** [Result<T>] of eyre: [Err] carries the error message. *)
Inductive result (A : Type) : Type :=
| Ok (a : A)
| Err (msg : string).
Arguments Ok {A} a.
Arguments Err {A} msg.

Definition u64_max : Z := 2 ^ 64 - 1.

(** [sui_sdk::SUI_COIN_TYPE] *)
Definition SUI_COIN_TYPE : string := "0x2::sui::SUI".

(** [utils::coin::is_native_coin] *)
Definition is_native_coin (coin_type : string) : bool :=
  String.eqb coin_type SUI_COIN_TYPE.

(** [config::GAS_BUDGET] *)
Definition GAS_BUDGET : Z := 10000000000.

(** ** DEX legs and paths ([defi/mod.rs], [defi/trade.rs]) *)

Inductive Protocol :=
| Cetus | Turbos | Aftermath | KriyaAmm | KriyaClmm | FlowxClmm | DeepbookV2 | BlueMove.

(** The data a [Box<dyn Dex>] exposes through the [Dex] trait. *)
Record Dex := mkDex {
  dex_protocol : Protocol;
  object_id : Z;
  coin_in_type : string;
  coin_out_type : string;
  type_params : list string;
}.

(** [Dex::flip]: every adapter swaps [coin_in_type] and [coin_out_type];
    the FlowX CLMM adapter also reverses its [type_params]. *)
Definition flip (d : Dex) : Dex :=
  {| dex_protocol := dex_protocol d;
     object_id := object_id d;
     coin_in_type := coin_out_type d;
     coin_out_type := coin_in_type d;
     type_params := match dex_protocol d with
                    | FlowxClmm => rev (type_params d)
                    | _ => type_params d
                    end |}.

(** [pub struct Path { pub path: Vec<Box<dyn Dex>> }] *)
Record Path := mkPath { path : list Dex }.

Definition path_is_empty (p : Path) : bool :=
  match path p with [] => true | _ => false end.

(** [Path::is_disjoint]: the two [HashSet]s of legs are disjoint; a
    [Box<dyn Dex>] hashes and compares by [object_id]. *)
Definition is_disjoint (a b : Path) : bool :=
  forallb (fun d => negb (existsb (fun e => Z.eqb (object_id d) (object_id e)) (path b)))
          (path a).

(** [Path::contains_pool] *)
Definition contains_pool (p : Path) (pool_id : option Z) : bool :=
  match pool_id with
  | Some id => existsb (fun dex => Z.eqb (object_id dex) id) (path p)
  | None => false
  end.

(** [Path::coin_in_type]: [self.path[0]]; [None] is the index panic. *)
Definition path_coin_in_type (p : Path) : option string :=
  match path p with
  | d :: _ => Some (coin_in_type d)
  | [] => None
  end.

(** [Path::coin_out_type]: [self.path.last().unwrap()]. *)
Definition path_coin_out_type (p : Path) : option string :=
  match rev (path p) with
  | d :: _ => Some (coin_out_type d)
  | [] => None
  end.

(** [PathTradeResult]; [gas_cost] is an [i64], the amounts [u64]. *)
Record PathTradeResult := mkPathTradeResult {
  ptr_path : Path;
  ptr_amount_in : Z;
  ptr_amount_out : Z;
  ptr_gas_cost : Z;
  ptr_cache_misses : Z;
}.

(** [PathTradeResult::profit] (an [i128]; the [u64]/[i64] operands
    cannot overflow it).  [None] is the panic of [coin_in_type] or
    [coin_out_type] on an empty path. *)
Definition profit (r : PathTradeResult) : option Z :=
  match path_coin_in_type (ptr_path r) with
  | None => None
  | Some cin =>
      if String.eqb cin SUI_COIN_TYPE then
        match path_coin_out_type (ptr_path r) with
        | None => None
        | Some cout =>
            if String.eqb cout SUI_COIN_TYPE then
              Some (ptr_amount_out r - ptr_amount_in r - ptr_gas_cost r)
            else Some (0 - ptr_gas_cost r - ptr_amount_in r)
        end
      else Some 0
  end.

(** [Defi::find_buy_paths], given the result of the inner call to
    [find_sell_paths]: each path reversed in place, then each leg flipped. *)
Definition find_buy_paths (sell : result (list Path)) : result (list Path) :=
  match sell with
  | Err e => Err e
  | Ok paths =>
      Ok (map (fun p => mkPath (map flip (rev (path p)))) paths)
  end.

(** ** [TrialCtx::trial] ([arb.rs]) *)

Inductive TradeType := Swap | Flashloan.

Record TrialResult := mkTrialResult {
  tr_coin_type : string;
  tr_amount_in : Z;
  tr_profit : Z;
  tr_trade_path : Path;
  tr_cache_misses : Z;
}.

(** [TrialResult::default()] *)
Definition trial_result_default : TrialResult :=
  mkTrialResult "" 0 0 (mkPath []) 0.

Record TrialCtx := mkTrialCtx {
  ctx_coin_type : string;
  ctx_pool_id : option Z;
  buy_paths : list Path;
  sell_paths : list Path;
}.

(** The candidate full routes of a trial: the [filter_map] over
    [self.sell_paths] that appends each kept sell path to the best buy path. *)
Definition trade_paths (best_buy_path : Path) (pool_id : option Z)
    (sells : list Path) : list Path :=
  let buy_path_contains_pool := contains_pool best_buy_path pool_id in
  omap (fun p =>
          if is_disjoint best_buy_path p && (buy_path_contains_pool || contains_pool p pool_id)
          then Some (mkPath (path best_buy_path ++ path p))
          else None) sells.

Section Trial.
(** [Defi::find_best_path_exact_in] with the fixed sender, gas coins and
    simulation context of the trial; it runs the simulator. *)
Variable find_best_path_exact_in : list Path -> Z -> TradeType -> result PathTradeResult.

Definition trial (ctx : TrialCtx) (amount_in : Z) : result TrialResult :=
  match find_best_path_exact_in (buy_paths ctx) amount_in Swap with
  | Err e => Err e
  | Ok best_buy_res =>
      let tps := trade_paths (ptr_path best_buy_res) (ctx_pool_id ctx) (sell_paths ctx) in
      match tps with
      | [] => Err "no trade paths found"
      | _ =>
          match find_best_path_exact_in tps amount_in Flashloan with
          | Err e => Err e
          | Ok best_trade_res =>
              match profit best_trade_res with
              | None => Err "panic: empty path"
              | Some p =>
                  if p <=? 0 then Ok trial_result_default
                  else Ok (mkTrialResult (ctx_coin_type ctx) amount_in (p mod 2 ^ 64)
                             (ptr_path best_trade_res) (ptr_cache_misses best_trade_res))
              end
          end
      end
  end.
End Trial.

(** ** [SimEpoch] ([crates/simulator/src/lib.rs]) *)

Record SimEpoch := mkSimEpoch {
  epoch_id : Z;
  epoch_start_timestamp : Z;
  epoch_duration_ms : Z;
  gas_price : Z;
}.

(** [SimEpoch::is_stale] at wall-clock [now] (ms since the Unix epoch).
    The [u64] sum panics on overflow: [None]. *)
Definition is_stale (now : Z) (e : SimEpoch) : option bool :=
  let s := epoch_start_timestamp e + epoch_duration_ms e in
  if s >? u64_max then None else Some (now <? s).

(** [ArbStrategy::get_latest_epoch]: the cached epoch [self.epoch] and the
    epoch [chain] that [get_latest_epoch(&self.sui)] would fetch; returns
    the epoch and the new cache, [None] on a panic. *)
Definition get_latest_epoch (now : Z) (cached : option SimEpoch) (chain : SimEpoch)
  : option (SimEpoch * option SimEpoch) :=
  match cached with
  | Some e =>
      match is_stale now e with
      | None => None
      | Some false => Some (e, Some e)
      | Some true => Some (chain, Some chain)
      end
  | None => Some (chain, Some chain)
  end.

(** ** Transaction sources ([types.rs]) *)

(** A [TransactionDigest] is a [[u8; 32]]; its derived [Ord] is the
    lexicographic order on the bytes. *)
Definition Digest := list Z.

Fixpoint digest_le (a b : Digest) : bool :=
  match a, b with
  | [], _ => true
  | _ :: _, [] => false
  | x :: a', y :: b' => (x <? y) || ((x =? y) && digest_le a' b')
  end.

Definition digest_lt (a b : Digest) : bool := negb (digest_le b a).

Inductive Source :=
| Public
| Shio (opp_tx_digest : Digest) (bid_amount : Z) (start : Z) (arb_found : Z) (deadline : Z)
| ShioDeadlineMissed (start : Z) (arb_found : Z) (deadline : Z).

Definition is_shio (s : Source) : bool :=
  match s with Shio _ _ _ _ _ => true | _ => false end.

Definition opp_tx_digest (s : Source) : option Digest :=
  match s with Shio d _ _ _ _ => Some d | _ => None end.

Definition deadline (s : Source) : option Z :=
  match s with Shio _ _ _ _ dl => Some dl | _ => None end.

Definition bid_amount (s : Source) : Z :=
  match s with Shio _ b _ _ _ => b | _ => 0 end.

Definition with_bid_amount (s : Source) (b : Z) : Source :=
  match s with
  | Shio d _ st af dl => Shio d b st af dl
  | _ => s
  end.

Definition with_arb_found_time (s : Source) (af : Z) : Source :=
  match s with
  | Shio d b st _ dl =>
      if af <? dl then Shio d b st af dl else ShioDeadlineMissed st af dl
  | _ => s
  end.

(** The end of [Arb::find_opportunity], once [max_trial_res.profit > 0]
    was ensured: stamp the arbitrage-found time when the source has a
    deadline, then set the bid amount.  [profit / 10 * 9] is [u64]
    arithmetic and cannot overflow. *)
Definition finalize_source (source : Source) (now : Z) (best_profit : Z) : Source :=
  let source := match deadline source with
                | Some _ => with_arb_found_time source now
                | None => source
                end in
  with_bid_amount source (best_profit / 10 * 9).

(** ** [Trader::get_flashloan_trade_tx] ([defi/trade.rs]) *)

Section FlashloanTx.
(** Transaction data and the programmable transaction block. *)
Variable TransactionData PTB : Type.
(** [TransactionData::new_programmable(sender, gas_coins, tx, budget, gas_price)]
    for the fixed sender, gas coins and gas price, and its digest. *)
Variable new_programmable : PTB -> Z -> TransactionData.
Variable tx_digest : TransactionData -> Digest.
(** Steps 1 to 5 (flash loan, swaps, repay, bid, transfer) ending in
    [ctx.ptb.finish()]: the adapters append commands to the block and
    may fail. *)
Variable build_ptb : Path -> Z -> Source -> result PTB.

(** Step 6, the loop
    [while tx_data.digest() <= opp_tx_digest { gas_budget += 1; ... }]
    as a big-step relation: it need not terminate.  [gas_budget] is a
    [u64]; its increment past [u64::MAX] panics, so no step exists. *)
Inductive bump_loop (tx : PTB) (opp : Digest) : Z -> TransactionData -> TransactionData -> Prop :=
| bump_done gas_budget td :
    digest_le (tx_digest td) opp = false ->
    bump_loop tx opp gas_budget td td
| bump_step gas_budget td td' :
    digest_le (tx_digest td) opp = true ->
    gas_budget + 1 <= u64_max ->
    bump_loop tx opp (gas_budget + 1) (new_programmable tx (gas_budget + 1)) td' ->
    bump_loop tx opp gas_budget td td'.

(** [get_flashloan_trade_tx] returning [Ok] with this transaction data
    (the mocked object of the result is always [None]). *)
Inductive get_flashloan_trade_tx_ok (p : Path) (amount_in : Z) (source : Source)
  : TransactionData -> Prop :=
| flash_public tx :
    path_is_empty p = false ->
    build_ptb p amount_in source = Ok tx ->
    opp_tx_digest source = None ->
    get_flashloan_trade_tx_ok p amount_in source (new_programmable tx GAS_BUDGET)
| flash_sealed tx opp td :
    path_is_empty p = false ->
    build_ptb p amount_in source = Ok tx ->
    opp_tx_digest source = Some opp ->
    bump_loop tx opp GAS_BUDGET (new_programmable tx GAS_BUDGET) td ->
    get_flashloan_trade_tx_ok p amount_in source td.
End FlashloanTx.

(** ** [golden_section_search_maximize] ([common/search.rs]) *)

Section GSS.
(** [INP] is an unsigned integer of [w] bits ([u64] for [TrialGoal]);
    its operators wrap around as in a release build. *)
Variable w : Z.
Let M : Z := 2 ^ w.
Let add (a b : Z) : Z := (a + b) mod M.
Let sub (a b : Z) : Z := (a - b) mod M.
Let mul (a b : Z) : Z := (a * b) mod M.
Let div (a b : Z) : Z := a / b.

Variable OUT : Type.
(** [goal.evaluate(inp, additional_ctx)]: the value and the output. *)
Variable evaluate : Z -> Z * OUT.

Definition gss_u : Z := 14566495.
Definition gss_d : Z := 9002589.

(** The closure [c]. *)
Definition gss_c (x : Z) : Z :=
  if mul x gss_d <? x then mul (div x gss_u) gss_d else div (mul x gss_d) gss_u.

Record GssState := mkGssState {
  left : Z; right : Z; mid_left : Z; mid_right : Z;
  fl : Z; fr : Z; out_left : OUT; out_right : OUT;
  max_in : Z; max_f : Z; max_out : OUT;
  tries : Z;
}.

(** [if f > max_f { max_f = f; max_in = x; max_out = out; }] *)
Definition gss_record (x f : Z) (o : OUT) (s : GssState) : GssState :=
  if max_f s <? f
  then {| left := left s; right := right s; mid_left := mid_left s; mid_right := mid_right s;
          fl := fl s; fr := fr s; out_left := out_left s; out_right := out_right s;
          max_in := x; max_f := f; max_out := o; tries := tries s |}
  else s.

(** One pass of the [while] body, after [tries += 1]. *)
Definition gss_body (s : GssState) : GssState :=
  let tries' := tries s + 1 in
  if fl s <? fr s then
    let left' := mid_left s in
    let mid_left' := mid_right s in
    let mid_right' := add left' (gss_c (sub (right s) left')) in
    let '(fr', out_r') := evaluate mid_right' in
    gss_record mid_right' fr' out_r'
      {| left := left'; right := right s; mid_left := mid_left'; mid_right := mid_right';
         fl := fr s; fr := fr'; out_left := out_left s; out_right := out_r';
         max_in := max_in s; max_f := max_f s; max_out := max_out s; tries := tries' |}
  else
    let right' := mid_right s in
    let temp := sub right' (gss_c (sub right' (left s))) in
    match Z.compare temp (mid_left s) with
    | Lt =>
        let '(fl', out_l') := evaluate temp in
        gss_record temp fl' out_l'
          {| left := left s; right := right'; mid_left := temp; mid_right := mid_left s;
             fl := fl'; fr := fl s; out_left := out_l'; out_right := out_right s;
             max_in := max_in s; max_f := max_f s; max_out := max_out s; tries := tries' |}
    | Eq =>
        let mr := Z.min (add temp 1) right' in
        let '(fr', out_r') := evaluate mr in
        gss_record mr fr' out_r'
          {| left := left s; right := right'; mid_left := mid_left s; mid_right := mr;
             fl := fl s; fr := fr'; out_left := out_left s; out_right := out_r';
             max_in := max_in s; max_f := max_f s; max_out := max_out s; tries := tries' |}
    | Gt =>
        let '(fr', out_r') := evaluate temp in
        gss_record temp fr' out_r'
          {| left := left s; right := right'; mid_left := mid_left s; mid_right := temp;
             fl := fl s; fr := fr'; out_left := out_left s; out_right := out_r';
             max_in := max_in s; max_f := max_f s; max_out := max_out s; tries := tries' |}
    end.

(** [while right - left > three && tries < 1000 { ... }]: [tries] starts
    at 0 and grows by one per pass, so 1000 passes of fuel run the loop
    to its exit. *)
Fixpoint gss_loop (fuel : nat) (s : GssState) : GssState :=
  match fuel with
  | O => s
  | S n =>
      if (3 <? sub (right s) (left s)) && (tries s <? 1000)
      then gss_loop n (gss_body s)
      else s
  end.

(** [for i in 1..=2 { let i = i + left; if i >= right { break; } ... }] *)
Fixpoint gss_inner (ks : list Z) (s : GssState) : GssState :=
  match ks with
  | [] => s
  | k :: ks' =>
      let i := add k (left s) in
      if right s <=? i then s
      else let '(f_mid, out_mid) := evaluate i in
           gss_inner ks' (gss_record i f_mid out_mid s)
  end.

(** The whole function; [None] is the failed [assert!(min < max)]. *)
Definition golden_section_search_maximize (min max : Z) : option (Z * Z * OUT) :=
  if negb (min <? max) then None else
  let left0 := min in
  let right0 := max in
  let '(fl0, out_l0) := evaluate left0 in
  let '(fr0, out_r0) := evaluate right0 in
  let '(mi, mf, mo) := if fl0 <? fr0 then (right0, fr0, out_r0) else (left0, fl0, out_l0) in
  let delta := gss_c (sub right0 left0) in
  let mid_left0 := sub right0 delta in
  let mid_right0 := add left0 delta in
  let mid_right0 := if mid_right0 <=? mid_left0 then Z.min (add mid_left0 1) right0 else mid_right0 in
  let '(fl1, out_l1) := evaluate mid_left0 in
  let s1 := gss_record mid_left0 fl1 out_l1
              {| left := left0; right := right0; mid_left := mid_left0; mid_right := mid_right0;
                 fl := fl1; fr := fl1; out_left := out_l1; out_right := out_l1;
                 max_in := mi; max_f := mf; max_out := mo; tries := 0 |} in
  let '(fr1, out_r1) := evaluate mid_right0 in
  let s2 := gss_record mid_right0 fr1 out_r1
              {| left := left s1; right := right s1; mid_left := mid_left s1;
                 mid_right := mid_right s1; fl := fl s1; fr := fr1;
                 out_left := out_left s1; out_right := out_r1;
                 max_in := max_in s1; max_f := max_f s1; max_out := max_out s1;
                 tries := 0 |} in
  let s3 := gss_loop 1000 s2 in
  let s4 := gss_inner [1; 2] s3 in
  Some (max_in s4, max_f s4, max_out s4).
End GSS.

(** ** [ArbCache] ([strategy/arb_cache.rs]) *)

Section ArbCacheModel.
(** [SimulateCtx] is carried around and never inspected by the cache. *)
Variable SimulateCtx : Type.

(** [Instant]s are milliseconds on an unbounded clock. *)
Record ArbEntry := mkArbEntry {
  entry_digest : Digest;
  entry_sim_ctx : SimulateCtx;
  generation : Z;
  expires_at : Z;
  entry_source : Source;
}.

Record HeapItem := mkHeapItem {
  h_expires_at : Z;
  h_generation : Z;
  h_coin : string;
  h_pool_id : option Z;
}.

Record ArbItem := mkArbItem {
  item_coin : string;
  item_pool_id : option Z;
  item_tx_digest : Digest;
  item_sim_ctx : SimulateCtx;
  item_source : Source;
}.

Record ArbCache := mkArbCache {
  map : gmap string ArbEntry;
  heap : list HeapItem;
  generation_counter : Z;
  expiration_duration : Z;
}.

Definition set_map (m : gmap string ArbEntry) (s : ArbCache) : ArbCache :=
  mkArbCache m (heap s) (generation_counter s) (expiration_duration s).
Definition set_heap (h : list HeapItem) (s : ArbCache) : ArbCache :=
  mkArbCache (map s) h (generation_counter s) (expiration_duration s).

(** [HeapItem::cmp] reverses [(expires_at, generation)], so the
    [BinaryHeap] (a max-heap) yields the smallest pair first. *)
Definition heap_item_le (a b : HeapItem) : bool :=
  (h_expires_at a <? h_expires_at b)
  || ((h_expires_at a =? h_expires_at b) && (h_generation a <=? h_generation b)).

(** [heap.peek()] / [heap.pop()]: the top item and the rest of the heap
    (the heap as a bag; the first of equal tops is taken). *)
Fixpoint heap_pop (h : list HeapItem) : option (HeapItem * list HeapItem) :=
  match h with
  | [] => None
  | x :: t =>
      match heap_pop t with
      | None => Some (x, [])
      | Some (m, t') => if heap_item_le x m then Some (x, t) else Some (m, x :: t')
      end
  end.

Definition new_cache (expiration_duration : Z) : ArbCache :=
  mkArbCache ∅ [] 0 expiration_duration.

(** [ArbCache::insert] at time [now]; [None] is the panic of
    [generation_counter += 1] past [u64::MAX]. *)
Definition insert (coin : string) (pool_id : option Z) (digest : Digest)
    (sim_ctx : SimulateCtx) (source : Source) (now : Z) (s : ArbCache) : option ArbCache :=
  let counter := generation_counter s + 1 in
  if counter >? u64_max then None else
  let expires_at := now + expiration_duration s in
  Some (mkArbCache
          (<[coin := mkArbEntry digest sim_ctx counter expires_at source]> (map s))
          (mkHeapItem expires_at counter coin pool_id :: heap s)
          counter (expiration_duration s)).

(** [ArbCache::get] *)
Definition get (s : ArbCache) (coin : string) : option (Digest * SimulateCtx) :=
  match map s !! coin with
  | Some e => Some (entry_digest e, entry_sim_ctx e)
  | None => None
  end.

(** One pass of the [while let Some(top) = self.heap.pop()] loop of
    [pop_one]. *)
Inductive PopStep :=
| PopContinue (s : ArbCache)
| PopReturn (r : option ArbItem) (s : ArbCache).

Definition pop_one_step (now : Z) (s : ArbCache) : PopStep :=
  match heap_pop (heap s) with
  | None => PopReturn None s
  | Some (top, rest) =>
      let s := set_heap rest s in
      match map s !! h_coin top with
      | Some entry =>
          if generation entry =? h_generation top then
            if now <? expires_at entry then
              PopReturn (Some (mkArbItem (h_coin top) (h_pool_id top) (entry_digest entry)
                                 (entry_sim_ctx entry) (entry_source entry)))
                        (set_map (delete (h_coin top) (map s)) s)
            else PopContinue (set_map (delete (h_coin top) (map s)) s)
          else PopContinue s
      | None => PopContinue s
      end
  end.

(** Each pass pops one heap item, so [length heap] passes of fuel run
    the loop to its exit. *)
Fixpoint pop_one_loop (fuel : nat) (now : Z) (s : ArbCache) : option ArbItem * ArbCache :=
  match fuel with
  | O => (None, s)
  | S n =>
      match pop_one_step now s with
      | PopReturn r s' => (r, s')
      | PopContinue s' => pop_one_loop n now s'
      end
  end.

Definition pop_one (now : Z) (s : ArbCache) : option ArbItem * ArbCache :=
  pop_one_loop (length (heap s)) now s.

(** One pass of the [while let Some(top) = self.heap.peek()] loop of
    [remove_expired]: [RemoveContinue] carries the coin pushed onto
    [expired_coins], if any. *)
Inductive RemoveStep :=
| RemoveContinue (expired : option string) (s : ArbCache)
| RemoveBreak.

Definition remove_expired_step (now : Z) (s : ArbCache) : RemoveStep :=
  match heap_pop (heap s) with
  | None => RemoveBreak
  | Some (top, rest) =>
      match map s !! h_coin top with
      | Some entry =>
          if negb (generation entry =? h_generation top) then
            RemoveContinue None (set_heap rest s)
          else if expires_at entry <=? now then
            RemoveContinue (Some (h_coin top))
              (set_heap rest (set_map (delete (h_coin top) (map s)) s))
          else RemoveBreak
      | None => RemoveContinue None (set_heap rest s)
      end
  end.

Fixpoint remove_expired_loop (fuel : nat) (now : Z) (s : ArbCache) : list string * ArbCache :=
  match fuel with
  | O => ([], s)
  | S n =>
      match remove_expired_step now s with
      | RemoveBreak => ([], s)
      | RemoveContinue e s' =>
          let '(cs, s'') := remove_expired_loop n now s' in
          (match e with Some c => c :: cs | None => cs end, s'')
      end
  end.

Definition remove_expired (now : Z) (s : ArbCache) : list string * ArbCache :=
  remove_expired_loop (length (heap s)) now s.

Inductive CacheOp :=
| OpInsert (coin : string) (pool_id : option Z) (digest : Digest)
           (sim_ctx : SimulateCtx) (source : Source) (now : Z)
| OpPopOne (now : Z)
| OpRemoveExpired (now : Z).

Definition apply_op (s : ArbCache) (op : CacheOp) : option ArbCache :=
  match op with
  | OpInsert c p d x src now => insert c p d x src now s
  | OpPopOne now => Some (snd (pop_one now s))
  | OpRemoveExpired now => Some (snd (remove_expired now s))
  end.

Fixpoint run_ops (s : ArbCache) (ops : list CacheOp) : option ArbCache :=
  match ops with
  | [] => Some s
  | op :: ops' =>
      match apply_op s op with
      | Some s' => run_ops s' ops'
      | None => None
      end
  end.
End ArbCacheModel.

(** ** [Worker::dry_run_tx_data] ([strategy/worker.rs]) *)

Inductive Owner :=
| AddressOwner (addr : Z)
| ObjectOwner (id : Z)
| SharedOwner (initial_shared_version : Z)
| Immutable.

Definition owner_eqb (a b : Owner) : bool :=
  match a, b with
  | AddressOwner x, AddressOwner y => x =? y
  | ObjectOwner x, ObjectOwner y => x =? y
  | SharedOwner x, SharedOwner y => x =? y
  | Immutable, Immutable => true
  | _, _ => false
  end.

Record BalanceChange := mkBalanceChange {
  bc_owner : Owner;
  bc_coin_type : string;
  bc_amount : Z;
}.

Record SimulateResult := mkSimulateResult {
  status_is_ok : bool;
  balance_changes : list BalanceChange;
}.

Section DryRun.
Variable TransactionData : Type.

(** [fixed] is the result of [self.fix_object_refs(tx_data)];
    [simulate] is the simulator run on the fixed transaction. *)
Definition dry_run_tx_data (sender : Z) (fixed : result TransactionData)
    (simulate : TransactionData -> result SimulateResult) : result TransactionData :=
  match fixed with
  | Err e => Err e
  | Ok tx_data =>
      match simulate tx_data with
      | Err e => Err e
      | Ok resp =>
          if negb (status_is_ok resp) then Err "Dry run result" else
          match List.find (fun bc => owner_eqb (bc_owner bc) (AddressOwner sender))
                          (balance_changes resp) with
          | None => Err "No balance change for attacker"
          | Some bc => if 0 <? bc_amount bc then Ok tx_data
                       else Err "Attacker's balance not increased"
          end
      end
  end.
End DryRun.

(** The generation invariant of the arbitrage cache: every heap item is
    at most the counter, and the map entry of a coin is at least every
    heap item of that coin. *)
Definition cache_inv {SimulateCtx : Type} (s : ArbCache SimulateCtx) : Prop :=
  (forall h, In h (heap SimulateCtx s) -> h_generation h <= generation_counter SimulateCtx s) /\
  (forall c e, map SimulateCtx s !! c = Some e ->
     forall h, In h (heap SimulateCtx s) -> h_coin h = c -> h_generation h <= generation SimulateCtx e).

(** The shape of the cache's heap against its map: every map entry has a
    heap item of its coin and generation, and a heap item of that coin and
    generation carries the entry's expiry. *)
Definition cache_cover {SimulateCtx : Type} (s : ArbCache SimulateCtx) : Prop :=
  forall c e, map SimulateCtx s !! c = Some e ->
    (exists h, In h (heap SimulateCtx s) /\ h_coin h = c /\ h_generation h = generation SimulateCtx e) /\
    (forall h, In h (heap SimulateCtx s) -> h_coin h = c -> h_generation h = generation SimulateCtx e ->
       h_expires_at h = expires_at SimulateCtx e).

(** A heap top is stale: its coin has no entry, or an entry of another
    generation. *)
Definition stale_top {SimulateCtx : Type} (s : ArbCache SimulateCtx) (top : HeapItem) : Prop :=
  map SimulateCtx s !! h_coin top = None \/
  exists e, map SimulateCtx s !! h_coin top = Some e /\ generation SimulateCtx e <> h_generation top.

(** ** [Defi::find_best_path_exact_in] ([defi/mod.rs]) *)

(** [TradeResult]: ordered by [amount_out] alone. *)
Record TradeResult := mkTradeResult {
  tres_amount_out : Z;
  tres_gas_cost : Z;
  tres_cache_misses : Z;
}.

Definition trade_result_default : TradeResult := mkTradeResult 0 0 0.

Section FindBest.
(** [Trader::get_trade_result] with the fixed sender, gas coins and
    simulation context; it runs the simulator. *)
Variable get_trade_result : Path -> Z -> TradeType -> result TradeResult.

(** The [while let Some(Ok((idx, trade_res))) = joinset.join_next()] loop
    over the completed tasks, in completion order. *)
Fixpoint join_best (done : list (nat * result TradeResult)) (best_idx : nat)
    (best_trade_res : TradeResult) : nat * TradeResult :=
  match done with
  | [] => (best_idx, best_trade_res)
  | (idx, Ok trade_res) :: rest =>
      if tres_amount_out best_trade_res <? tres_amount_out trade_res
      then join_best rest idx trade_res
      else join_best rest best_idx best_trade_res
  | (idx, Err _) :: rest => join_best rest best_idx best_trade_res
  end.

(** One task is spawned per non-empty path; [order] lists the indices of
    the tasks in the order [join_next] yields them (a prefix of them if a
    task panics and ends the loop). *)
Definition find_best_path_exact_in (paths : list Path) (amount_in : Z)
    (trade_type : TradeType) (order : list nat) : result PathTradeResult :=
  let done := List.map (fun idx => (idx, get_trade_result (nth idx paths (mkPath [])) amount_in trade_type))
                       order in
  let '(best_idx, best_trade_res) := join_best done 0 trade_result_default in
  if negb (0 <? tres_amount_out best_trade_res) then Err "zero amount_out" else
  match nth_error paths best_idx with
  | None => Err "panic: index out of bounds"
  | Some p => Ok (mkPathTradeResult p amount_in (tres_amount_out best_trade_res)
                   (tres_gas_cost best_trade_res) (tres_cache_misses best_trade_res))
  end.

(** The tasks spawned for [paths]: the indices of its non-empty paths. *)
Definition spawned_indices (paths : list Path) : list nat :=
  List.filter (fun i => negb (path_is_empty (nth i paths (mkPath [])))) (seq 0 (length paths)).
End FindBest.

(** ** [Defi::find_sell_paths] and [dfs] ([defi/mod.rs]) *)

Definition MAX_HOP_COUNT : nat := 2.
Definition MAX_POOL_COUNT : nat := 10.
Definition MIN_LIQUIDITY : Z := 1000.

(** [config::pegged_coin_types] *)
Definition pegged_coin_types : list string :=
  [SUI_COIN_TYPE;
   "0x5d4b302506645c37ff133b98c4b50a5ae14841659738d6d733d59d0d217a93bf::coin::COIN";
   "0xc060006111016b8a020ad5b33834984a437aaa7d3c74c18e09a95d48aceab08c::coin::COIN";
   "0xaf8cd5edc19c4512f4259f0bee101a40d41ebed738ade5874359610ef8eeced5::coin::COIN";
   "0xb231fcda8bbddb31f2ef02e6161444aec64a514e2c89279584ac9806ce9cf037::coin::COIN";
   "0xdba34672e30cb065b1f93e3ab55318768fd6fef66c15942c9f7cb846e2f900e7::usdc::USDC";
   "0xce7ff77a83ea0cb6fd39bd8748e2ec89a3f41e8efdc3f4eb123e0ca37b184db2::buck::BUCK"]%string.

(** The locals of the hop loop of [find_sell_paths]. *)
Record HopState := mkHopState {
  visited : gset string;
  visited_dexes : gset Z;
  all_hops : gmap string (list Dex);
  new_stack : list string;
}.

Section SellPaths.
(** [IndexerDexSearcher::find_dexes] (an indexer query) and
    [Dex::liquidity]. *)
Variable find_dexes : string -> option string -> result (list Dex).
Variable liquidity : Dex -> Z.

(** [sort_by_key(|dex| Reverse(dex.liquidity()))]: a stable sort by
    decreasing liquidity, as an insertion sort. *)
Fixpoint insert_by_liquidity (d : Dex) (l : list Dex) : list Dex :=
  match l with
  | [] => [d]
  | x :: r => if liquidity x <? liquidity d then d :: l else x :: insert_by_liquidity d r
  end.

Definition sort_by_liquidity_desc (l : list Dex) : list Dex :=
  fold_left (fun acc d => insert_by_liquidity d acc) l [].

(** [for dex in &dexes { ... }]: push the unvisited output coins onto
    [new_stack] and record the pools. *)
Fixpoint push_out_coins (vis : gset string) (dexes : list Dex) (ns : list string) (vd : gset Z)
    : list string * gset Z :=
  match dexes with
  | [] => (ns, vd)
  | dex :: rest =>
      let ns' := if bool_decide (coin_out_type dex ∈ vis) then ns else ns ++ [coin_out_type dex] in
      push_out_coins vis rest ns' ({[object_id dex]} ∪ vd)
  end.

(** One pass of [while let Some(coin_type) = stack.pop()]. *)
Definition visit_coin (is_last_hop : bool) (st : HopState) (coin_type : string) : HopState :=
  if bool_decide (coin_type ∈ visited st) || is_native_coin coin_type then st else
  let vis := {[coin_type]} ∪ visited st in
  let st_v := mkHopState vis (visited_dexes st) (all_hops st) (new_stack st) in
  let coin_out := if existsb (String.eqb coin_type) pegged_coin_types || is_last_hop
                  then Some SUI_COIN_TYPE else None in
  match find_dexes coin_type coin_out with
  | Err _ => st_v
  | Ok dexes =>
      let dexes := List.filter (fun dex => MIN_LIQUIDITY <=? liquidity dex) dexes in
      let dexes :=
        if (MAX_POOL_COUNT <? length dexes)%nat
        then firstn MAX_POOL_COUNT
               (sort_by_liquidity_desc
                  (List.filter (fun dex => negb (bool_decide (object_id dex ∈ visited_dexes st))) dexes))
        else dexes in
      match dexes with
      | [] => st_v
      | _ =>
          let '(ns, vd) := push_out_coins vis dexes (new_stack st) (visited_dexes st) in
          mkHopState vis vd (<[coin_type := dexes]> (all_hops st)) ns
      end
  end.

(** [for nth_hop in 0..MAX_HOP_COUNT]: the [while] loop pops [stack] from
    its end, so it visits [rev stack]. *)
Fixpoint hop_loop (ks : list nat) (stack : list string) (st : HopState) : HopState :=
  match ks with
  | [] => st
  | nth_hop :: ks' =>
      let is_last_hop := Nat.eqb nth_hop (MAX_HOP_COUNT - 1) in
      let st' := fold_left (visit_coin is_last_hop) (rev stack)
                   (mkHopState (visited st) (visited_dexes st) (all_hops st) []) in
      if is_last_hop then st' else hop_loop ks' (new_stack st') st'
  end.

(** [dfs]; [path] grows by one leg per call and the length test stops it at
    [MAX_HOP_COUNT] legs, so the fuel [n] never runs out before it. *)
Fixpoint dfs_go (n : nat) (coin_type : string) (path : list Dex)
    (hops : gmap string (list Dex)) : list (list Dex) :=
  if is_native_coin coin_type then [path] else
  if (MAX_HOP_COUNT <=? length path)%nat then [] else
  match n with
  | O => []
  | S n' =>
      match hops !! coin_type with
      | None => []
      | Some ds => flat_map (fun dex => dfs_go n' (coin_out_type dex) (path ++ [dex]) hops) ds
      end
  end.

Definition dfs (coin_type : string) (path : list Dex) (hops : gmap string (list Dex)) : list (list Dex) :=
  dfs_go (S MAX_HOP_COUNT) coin_type path hops.

Definition find_sell_paths (coin_in_type : string) : result (list Path) :=
  if is_native_coin coin_in_type then Ok [mkPath []] else
  let st := hop_loop (seq 0 MAX_HOP_COUNT) [coin_in_type] (mkHopState ∅ ∅ ∅ []) in
  Ok (List.map mkPath (dfs coin_in_type [] (all_hops st))).

(** A route out of [c]: every leg was returned by [find_dexes] for the coin
    it is taken from, that coin is not the native coin, the leg has at
    least [MIN_LIQUIDITY], and the route ends at the native coin. *)
Fixpoint route_from (c : string) (legs : list Dex) : Prop :=
  match legs with
  | [] => is_native_coin c = true
  | d :: rest =>
      is_native_coin c = false /\
      (exists cout ds, find_dexes c cout = Ok ds /\ In d ds) /\
      MIN_LIQUIDITY <= liquidity d /\
      route_from (coin_out_type d) rest
  end.
End SellPaths.

(** ** The search stage of [Arb::find_opportunity] ([arb.rs]) *)

Section FindOpportunity.
(** [ctx.trial(amount_in)] on the trial context built for the call. *)
Variable trial_fn : Z -> result TrialResult.

(** [TrialGoal::evaluate]: [trial(..).unwrap_or_default()] and its profit. *)
Definition trial_goal_evaluate (amount_in : Z) : Z * TrialResult :=
  let r := match trial_fn amount_in with Ok r => r | Err _ => trial_result_default end in
  (tr_profit r, r).

(** [starting_grid.checked_mul(10u64.pow(inc)).context("Grid overflow")?]
    ([10u64.pow(inc)] stays below [u64::MAX] for [inc <= 10]). *)
Definition checked_grid (inc : nat) : result Z :=
  let g := 1000000 * 10 ^ Z.of_nat inc in
  if g >? u64_max then Err "Grid overflow" else Ok g.

(** The spawning loop [for inc in 1..11]; [?] leaves at the first error. *)
Fixpoint grid_amounts (incs : list nat) : result (list Z) :=
  match incs with
  | [] => Ok []
  | inc :: rest =>
      match checked_grid inc with
      | Err e => Err e
      | Ok g => match grid_amounts rest with Err e => Err e | Ok gs => Ok (g :: gs) end
      end
  end.

(** The [while let Some(Ok(trial_res)) = joinset.join_next()] loop over the
    completed grid trials: the largest [cache_misses] and the result of
    largest profit ([TrialResult] is ordered by [profit]). *)
Fixpoint grid_search (done : list (result TrialResult)) (cache_misses : Z)
    (max_trial_res : TrialResult) : Z * TrialResult :=
  match done with
  | [] => (cache_misses, max_trial_res)
  | Ok trial_res :: rest =>
      let cm := if cache_misses <? tr_cache_misses trial_res then tr_cache_misses trial_res
                else cache_misses in
      let mx := if tr_profit max_trial_res <? tr_profit trial_res then trial_res else max_trial_res in
      grid_search rest cm mx
  | Err _ :: rest => grid_search rest cache_misses max_trial_res
  end.

(** [find_opportunity] from the grid search to the second [ensure!]:
    [order] lists the positions in the grid of the trials in the order
    [join_next] yields them; the result is [max_trial_res] and
    [cache_misses]. [None] from [golden_section_search_maximize] is its
    failed [assert!(min < max)]. *)
Definition find_opportunity_search (use_gss : bool) (order : list nat) : result (TrialResult * Z) :=
  match grid_amounts (seq 1 10) with
  | Err e => Err e
  | Ok grids =>
      let '(cache_misses, max_trial_res) :=
        grid_search (List.map (fun i => trial_fn (nth i grids 0)) order) 0 trial_result_default in
      if negb (0 <? tr_profit max_trial_res) then Err "No profitable grid found" else
      let after_gss :=
        if use_gss then
          let upper_bound := Z.min (tr_amount_in max_trial_res * 10) u64_max in
          let lower_bound := tr_amount_in max_trial_res / 10 in
          match golden_section_search_maximize 64 TrialResult trial_goal_evaluate lower_bound upper_bound with
          | None => None
          | Some (_, _, trial_res) =>
              let cm := if cache_misses <? tr_cache_misses trial_res then tr_cache_misses trial_res
                        else cache_misses in
              let mx := if tr_profit max_trial_res <? tr_profit trial_res then trial_res
                        else max_trial_res in
              Some (cm, mx)
          end
        else Some (cache_misses, max_trial_res) in
      match after_gss with
      | None => Err "panic: assertion failed: min < max"
      | Some (cache_misses, max_trial_res) =>
          if negb (0 <? tr_profit max_trial_res) then Err "No profitable trade path found"
          else Ok (max_trial_res, cache_misses)
      end
  end.
End FindOpportunity.

(** ** Dispatch of cached opportunities in [ArbStrategy::process_event]
    ([strategy/mod.rs]) *)

Section Dispatch.
Variable SimulateCtx : Type.
(** The clock read by the [i]-th [pop_one] call. *)
Variable pop_time : nat -> Z.
Variable max_recent_arbs : nat.

(** [VecDeque::remove] at [iter().position(|x| x == &coin)]. *)
Fixpoint remove_first (coin : string) (l : list string) : list string :=
  match l with
  | [] => []
  | x :: rest => if String.eqb x coin then rest else x :: remove_first coin rest
  end.

(** [for _ in 0..num_to_send]: the items sent on [arb_item_sender], the
    cache and [recent_arbs] (front first). A send on the open channel is
    taken to succeed. *)
Fixpoint send_loop (n i : nat) (s : ArbCache SimulateCtx) (recent_arbs : list string)
    : list (ArbItem SimulateCtx) * ArbCache SimulateCtx * list string :=
  match n with
  | O => ([], s, recent_arbs)
  | S n' =>
      match pop_one SimulateCtx (pop_time i) s with
      | (None, s') => ([], s', recent_arbs)
      | (Some item, s') =>
          if negb (existsb (String.eqb (item_coin SimulateCtx item)) recent_arbs)
             || is_shio (item_source SimulateCtx item)
          then
            let r := recent_arbs ++ [item_coin SimulateCtx item] in
            let r := if (max_recent_arbs <? length r)%nat then tl r else r in
            let '(sent, s'', r') := send_loop n' (S i) s' r in
            (item :: sent, s'', r')
          else send_loop n' (S i) s' recent_arbs
      end
  end.

(** From [let channel_len = ...] to the end of [process_event];
    [now] is the clock read by [remove_expired]. *)
Definition dispatch (channel_len : nat) (now : Z) (s : ArbCache SimulateCtx)
    (recent_arbs : list string) : list (ArbItem SimulateCtx) * ArbCache SimulateCtx * list string :=
  let '(sent, s1, r1) :=
    if (channel_len <? 10)%nat then send_loop (10 - channel_len) 0 s recent_arbs
    else ([], s, recent_arbs) in
  let '(expired_coins, s2) := remove_expired SimulateCtx now s1 in
  (sent, s2, fold_left (fun r coin => remove_first coin r) expired_coins r1).
End Dispatch.

(** ** Sample inputs *)

Definition leg (id : Z) (cin cout : string) : Dex := mkDex Cetus id cin cout [].
Definition USDC : string := "0xdba3::usdc::USDC".

Definition sample_ctx : TrialCtx :=
  mkTrialCtx "0xdba3::usdc::USDC" None
    [mkPath [leg 1 SUI_COIN_TYPE USDC]] [mkPath [leg 2 USDC SUI_COIN_TYPE]].

Definition sample_find_best (ps : list Path) (amount_in : Z) (_ : TradeType)
  : result PathTradeResult :=
  match ps with
  | p :: _ => Ok (mkPathTradeResult p amount_in (amount_in + 10) 1 0)
  | [] => Err "zero amount_out"
  end.

(** A trial triggered by pool 2, with one buy and one sell route. *)
Definition sample_pool_ctx : TrialCtx :=
  mkTrialCtx "0xdba3::usdc::USDC" (Some 2)
    [mkPath [leg 1 SUI_COIN_TYPE USDC]] [mkPath [leg 2 USDC SUI_COIN_TYPE]].

(** A trader that simulates [amount_in + object_id] out of the first leg. *)
Definition sample_get_trade_result (p : Path) (amount_in : Z) (_ : TradeType) : result TradeResult :=
  match path p with
  | d :: _ => Ok (mkTradeResult (amount_in + object_id d) 1 0)
  | [] => Err "empty path"
  end.

Definition sample_paths : list Path :=
  [mkPath [leg 1 SUI_COIN_TYPE USDC]; mkPath []; mkPath [leg 2 USDC SUI_COIN_TYPE]].

(** A trial whose profit peaks at [10^8] input. *)
Definition sample_trial_fn (amount_in : Z) : result TrialResult :=
  Ok (mkTrialResult USDC amount_in (Z.max 0 (1000 - Z.abs (amount_in - 100000000) / 100000))
        (mkPath [leg 1 SUI_COIN_TYPE USDC; leg 2 USDC SUI_COIN_TYPE]) 0).

(** A concrete bid: transaction data is its gas budget and its digest is
    the single byte [budget - GAS_BUDGET]; against [opp = [1]] the loop
    tries budgets [GAS_BUDGET] and [GAS_BUDGET + 1] and stops at
    [GAS_BUDGET + 2]. *)
Definition sample_new_programmable (_ : unit) (budget : Z) : Z := budget.
Definition sample_tx_digest (td : Z) : Digest := [td - GAS_BUDGET].
Definition sample_build_ptb (_ : Path) (_ : Z) (_ : Source) : result unit := Ok tt.
Definition sample_shio : Source := Shio [1] 9 0 0 100.

Definition sample_cache : ArbCache unit :=
  mkArbCache unit {[ USDC := mkArbEntry unit [3] tt 1 5000 Public ]}
    [mkHeapItem 5000 1 USDC None] 1 5000.

Definition sample_ops : list (CacheOp unit) :=
  [OpInsert unit USDC None [3] tt Public 0;
   OpInsert unit USDC (Some 7) [4] tt Public 10;
   OpRemoveExpired unit 20].

(** * Properties *)

(** ** Trial candidates *)

(** Claim C1 (code_bug evaluation): when the trial context has no trigger
    pool ([pool_id = None]), [contains_pool] is false for every path, the
    candidate list of [trial] is empty, and the trial fails with
    "no trade paths found" whatever the buy and sell paths are, although a
    pool-disjoint sell path may exist. *)
Theorem trial_no_pool_rejects_all :
  forall (find_best : list Path -> Z -> TradeType -> result PathTradeResult)
         (ctx : TrialCtx) (amount_in : Z),
    ctx_pool_id ctx = None ->
    (forall bb, trade_paths bb (ctx_pool_id ctx) (sell_paths ctx) = []) /\
    exists msg, trial find_best ctx amount_in = Err msg.
Proof.
  intros find_best ctx amount_in Hnone.
  assert (Hnil : forall bb, trade_paths bb (ctx_pool_id ctx) (sell_paths ctx) = []).
  { intros bb. rewrite Hnone. unfold trade_paths. simpl.
    induction (sell_paths ctx) as [|p ps IH]; simpl; [reflexivity|].
    rewrite andb_false_r. exact IH. }
  split; [exact Hnil|].
  unfold trial. destruct (find_best (buy_paths ctx) amount_in Swap) as [r|e].
  - rewrite Hnil. eexists. reflexivity.
  - eexists. reflexivity.
Qed.

Lemma trial_no_pool_rejects_all_witness :
  ctx_pool_id sample_ctx = None /\
  is_disjoint (mkPath [leg 1 SUI_COIN_TYPE USDC]) (mkPath [leg 2 USDC SUI_COIN_TYPE]) = true /\
  trial sample_find_best sample_ctx 1000 = Err "no trade paths found" /\
  exists msg, trial sample_find_best sample_ctx 1000 = Err msg.
Proof.
  split; [reflexivity|]. split; [reflexivity|]. split; [reflexivity|].
  apply (trial_no_pool_rejects_all sample_find_best sample_ctx 1000). reflexivity.
Defined.

(** ** Epoch staleness *)

(** Claim C2 (code_bug evaluation): for an epoch that ended at
    [start + duration = 1000] and a wall clock at 1001 ms, [is_stale]
    answers [false], and [get_latest_epoch] keeps serving the ended epoch
    instead of the chain's; while the epoch is running (clock at 500),
    [is_stale] answers [true] and the cache is refreshed. *)
Theorem is_stale_inverted :
  let e := mkSimEpoch 7 400 600 750 in
  let chain := mkSimEpoch 8 1000 600 760 in
  is_stale 1001 e = Some false /\
  get_latest_epoch 1001 (Some e) chain = Some (e, Some e) /\
  is_stale 500 e = Some true /\
  get_latest_epoch 500 (Some e) chain = Some (chain, Some chain).
Proof. repeat split; reflexivity. Qed.

(** ** Path profit *)

(** Claim C3 (counterexample): a native-in, non-native-out path
    (SUI to USDC) with [amount_in = 100], [amount_out = 50] and
    [gas_cost = 7] has profit [-107], not 0. *)
Lemma profit_native_in_counterexample :
  profit (mkPathTradeResult (mkPath [leg 1 SUI_COIN_TYPE USDC]) 100 50 7 0) = Some (-107) /\
  profit (mkPathTradeResult (mkPath [leg 1 SUI_COIN_TYPE USDC]) 100 50 7 0) <> Some 0.
Proof. split; [reflexivity | discriminate]. Qed.

(** Claim C3 (amended): for a trade result on a non-empty path,
    [profit] is [amount_out - amount_in - gas_cost] when both ends are the
    native coin, [- gas_cost - amount_in] when only the input is, and 0
    when the input coin is not native. *)
Theorem profit_cases :
  forall (r : PathTradeResult) (d : Dex) (ds : list Dex),
    path (ptr_path r) = d :: ds ->
    let cin := coin_in_type d in
    let cout := coin_out_type (List.last (d :: ds) d) in
    profit r =
      Some (if is_native_coin cin then
              if is_native_coin cout then ptr_amount_out r - ptr_amount_in r - ptr_gas_cost r
              else - ptr_gas_cost r - ptr_amount_in r
            else 0).
Proof.
  intros r d ds Hp cin cout.
  unfold profit, path_coin_in_type, path_coin_out_type, cin, cout, is_native_coin.
  rewrite Hp. destruct (String.eqb (coin_in_type d) SUI_COIN_TYPE); [|reflexivity].
  assert (Hl : forall (x : Dex) (l : list Dex), exists l', rev (x :: l) = List.last (x :: l) x :: l').
  { intros x l. revert x. induction l as [|y l IH]; intros x.
    - exists []. reflexivity.
    - destruct (IH y) as [l' Hl']. exists (l' ++ [x]).
      change (rev (x :: y :: l)) with (rev (y :: l) ++ [x]). rewrite Hl'.
      assert (Hd : forall (k : list Dex) (z a b : Dex), List.last (z :: k) a = List.last (z :: k) b).
      { induction k as [|z' k IHk]; intros z a b; [reflexivity|].
        change (List.last (z' :: k) a = List.last (z' :: k) b). apply IHk. }
      change (List.last (x :: y :: l) x) with (List.last (y :: l) x).
      rewrite (Hd l y x y). reflexivity. }
  destruct (Hl d ds) as [l' ->].
  destruct (String.eqb (coin_out_type (List.last (d :: ds) d)) SUI_COIN_TYPE); f_equal; lia.
Qed.

Lemma profit_cases_witness :
  path (ptr_path (mkPathTradeResult (mkPath [leg 1 SUI_COIN_TYPE USDC; leg 2 USDC SUI_COIN_TYPE]) 100 130 7 0))
    = leg 1 SUI_COIN_TYPE USDC :: [leg 2 USDC SUI_COIN_TYPE] /\
  profit (mkPathTradeResult (mkPath [leg 1 SUI_COIN_TYPE USDC; leg 2 USDC SUI_COIN_TYPE]) 100 130 7 0)
    = Some 23.
Proof.
  split; [reflexivity|].
  exact (profit_cases (mkPathTradeResult (mkPath [leg 1 SUI_COIN_TYPE USDC; leg 2 USDC SUI_COIN_TYPE]) 100 130 7 0)
           (leg 1 SUI_COIN_TYPE USDC) [leg 2 USDC SUI_COIN_TYPE] eq_refl).
Defined.

(** ** Sealed-bid digest ordering *)

Lemma bump_loop_spec :
  forall (TD PTB : Type) (new_programmable : PTB -> Z -> TD) (tx_digest : TD -> Digest)
         (tx : PTB) (opp : Digest) (b : Z) (td td' : TD),
    bump_loop TD PTB new_programmable tx_digest tx opp b td td' ->
    digest_lt opp (tx_digest td') = true /\
    ((td' = td /\ digest_le (tx_digest td) opp = false) \/
     (digest_le (tx_digest td) opp = true /\
      exists k, 1 <= k /\ b + k <= u64_max /\ td' = new_programmable tx (b + k) /\
        forall j, 1 <= j < k -> digest_le (tx_digest (new_programmable tx (b + j))) opp = true)).
Proof.
  intros TD PTB np dg tx opp b td td' H.
  induction H as [b td Hgt | b td td' Hle Hb Hrest IH].
  - split; [unfold digest_lt; rewrite Hgt; reflexivity|]. left. split; reflexivity || exact Hgt.
  - destruct IH as [Hlt Hcases]. split; [exact Hlt|]. right. split; [exact Hle|].
    destruct Hcases as [[-> _] | [Hle' [k [Hk [Hkb [-> Hj]]]]]].
    + exists 1. repeat split; try lia.
    + exists (1 + k). split; [lia|]. split; [lia|]. split.
      * f_equal. lia.
      * intros j Hj'. destruct (Z.eq_dec j 1) as [->|Hne]; [exact Hle'|].
        specialize (Hj (j - 1) ltac:(lia)).
        replace (b + j) with (b + 1 + (j - 1)) by lia. exact Hj.
Qed.

(** Claim C4: whenever [get_flashloan_trade_tx] returns [Ok] for a source
    that carries an opportunity digest [opp], the returned transaction's
    digest is strictly greater than [opp], and the transaction is the one
    rebuilt with [gas_budget = GAS_BUDGET + k] for the least [k >= 0] such
    that the budgets [GAS_BUDGET], ..., [GAS_BUDGET + k - 1], tried one
    after the other, all gave digests [<= opp]. *)
Theorem sealed_bid_digest_gt :
  forall (TD PTB : Type) (new_programmable : PTB -> Z -> TD) (tx_digest : TD -> Digest)
         (build_ptb : Path -> Z -> Source -> result PTB)
         (p : Path) (amount_in : Z) (source : Source) (opp : Digest) (td : TD),
    get_flashloan_trade_tx_ok TD PTB new_programmable tx_digest build_ptb p amount_in source td ->
    opp_tx_digest source = Some opp ->
    digest_lt opp (tx_digest td) = true /\
    exists tx k, build_ptb p amount_in source = Ok tx /\ 0 <= k /\
      td = new_programmable tx (GAS_BUDGET + k) /\
      forall j, 0 <= j < k -> digest_le (tx_digest (new_programmable tx (GAS_BUDGET + j))) opp = true.
Proof.
  intros TD PTB np dg build p amount_in source opp td Hok Hopp.
  destruct Hok as [tx _ _ Hnone | tx opp' td _ Hb Hopp' Hloop]; [congruence|].
  rewrite Hopp in Hopp'. injection Hopp' as <-.
  destruct (bump_loop_spec TD PTB np dg tx opp GAS_BUDGET _ td Hloop) as [Hlt Hc].
  split; [exact Hlt|]. exists tx.
  destruct Hc as [[-> Hgt] | [Hle [k [Hk [_ [-> Hj]]]]]].
  - exists 0. split; [exact Hb|]. split; [lia|]. split.
    + rewrite Z.add_0_r. reflexivity.
    + intros j Hj. lia.
  - exists k. split; [exact Hb|]. split; [lia|]. split; [reflexivity|].
    intros j Hj'. destruct (Z.eq_dec j 0) as [->|Hne].
    + rewrite Z.add_0_r. exact Hle.
    + apply Hj. lia.
Qed.

Lemma sample_bid_ok :
  get_flashloan_trade_tx_ok Z unit sample_new_programmable sample_tx_digest sample_build_ptb
    (mkPath [leg 1 SUI_COIN_TYPE USDC]) 1000 sample_shio (GAS_BUDGET + 2).
Proof.
  eapply flash_sealed; [reflexivity | reflexivity | reflexivity |].
  apply bump_step; [reflexivity | unfold GAS_BUDGET, u64_max; lia |].
  apply bump_step; [reflexivity | unfold GAS_BUDGET, u64_max; lia |].
  replace (GAS_BUDGET + 1 + 1) with (GAS_BUDGET + 2) by lia.
  apply bump_done. reflexivity.
Defined.

Lemma sealed_bid_digest_gt_witness :
  get_flashloan_trade_tx_ok Z unit sample_new_programmable sample_tx_digest sample_build_ptb
    (mkPath [leg 1 SUI_COIN_TYPE USDC]) 1000 sample_shio (GAS_BUDGET + 2) /\
  opp_tx_digest sample_shio = Some [1] /\
  digest_lt [1] (sample_tx_digest (GAS_BUDGET + 2)) = true.
Proof.
  split; [exact sample_bid_ok|]. split; [reflexivity|].
  apply (sealed_bid_digest_gt Z unit sample_new_programmable sample_tx_digest sample_build_ptb
           (mkPath [leg 1 SUI_COIN_TYPE USDC]) 1000 sample_shio [1] (GAS_BUDGET + 2)
           sample_bid_ok eq_refl).
Defined.

(** ** Buy paths *)

(** Claim C7: [find_buy_paths] returns, for each path of the inner
    [find_sell_paths] result and in the same order, that path with its
    legs in reverse order and each leg flipped; a flipped leg has its
    [coin_in_type] and [coin_out_type] exchanged and keeps its pool. *)
Theorem find_buy_paths_dual :
  forall (sell : result (list Path)),
    find_buy_paths sell =
      match sell with
      | Ok ps => Ok (List.map (fun p => mkPath (rev (List.map flip (path p)))) ps)
      | Err e => Err e
      end /\
    forall d : Dex,
      coin_in_type (flip d) = coin_out_type d /\ coin_out_type (flip d) = coin_in_type d /\
      object_id (flip d) = object_id d.
Proof.
  intros sell. split.
  - destruct sell as [ps|e]; [|reflexivity]. simpl. f_equal.
    apply List.map_ext. intros p. f_equal. apply List.map_rev.
  - intros d. repeat split.
Qed.

(** ** Bid amount *)

(** Claim C8 (counterexample): with best profit 15 and a live sealed
    auction, the bid set by [find_opportunity] is [15 / 10 * 9 = 9]: not
    [15 * 9 / 10] (13.5, or 13 in integer arithmetic). *)
Lemma bid_amount_counterexample :
  finalize_source (Shio [1] 0 0 0 100) 50 15 = Shio [1] 9 0 50 100 /\
  10 * bid_amount (finalize_source (Shio [1] 0 0 0 100) 50 15) <> 15 * 9 /\
  bid_amount (finalize_source (Shio [1] 0 0 0 100) 50 15) <> 15 * 9 / 10.
Proof. split; [reflexivity | split; discriminate]. Qed.

(** Claim C8 (amended): [with_bid_amount] rewrites the [bid_amount] of a
    [Shio] source and returns any other source unchanged; at the end of
    [find_opportunity] the source, once stamped with the arbitrage-found
    time [now], gets the bid [(p / 10) * 9] (integer division first) when it
    is still [Shio] (that is, when [now < deadline]); a source that missed
    its deadline or is public keeps no bid. *)
Theorem bid_amount_floor_tenths :
  (forall (s : Source) (b : Z),
     with_bid_amount s b =
       match s with
       | Shio d _ st af dl => Shio d b st af dl
       | _ => s
       end) /\
  (forall (s : Source) (now p : Z),
     finalize_source s now p =
       match s with
       | Shio d _ st _ dl =>
           if now <? dl then Shio d (p / 10 * 9) st now dl else ShioDeadlineMissed st now dl
       | _ => s
       end /\
     bid_amount (finalize_source s now p) =
       match s with
       | Shio _ _ _ _ dl => if now <? dl then p / 10 * 9 else 0
       | _ => 0
       end).
Proof.
  split.
  - intros s b. destruct s; reflexivity.
  - intros s now p. unfold finalize_source.
    destruct s as [|d b st af dl|st af dl]; simpl; try (split; reflexivity).
    destruct (now <? dl); split; reflexivity.
Qed.

(** ** Final dry run *)

(** Claim C9 (code_bug evaluation): the dry run takes the sender's first
    balance change whatever its coin.  A successful simulation whose
    balance changes for the sender are [+5] USDC and then [-3] SUI is
    accepted, although the sender's native-coin delta is negative. *)
Theorem dry_run_ignores_coin_type :
  let resp := mkSimulateResult true
                [mkBalanceChange (AddressOwner 1) USDC 5;
                 mkBalanceChange (AddressOwner 1) SUI_COIN_TYPE (-3)] in
  dry_run_tx_data unit 1 (Ok tt) (fun _ => Ok resp) = Ok tt /\
  List.find (fun bc => owner_eqb (bc_owner bc) (AddressOwner 1) && String.eqb (bc_coin_type bc) SUI_COIN_TYPE)
            (balance_changes resp)
    = Some (mkBalanceChange (AddressOwner 1) SUI_COIN_TYPE (-3)).
Proof. split; reflexivity. Qed.

(** ** Cache lookup *)

(** Claim C10: [get] returns the stored digest and simulation context of
    any coin present in the map, whatever the time: an entry whose
    [expires_at] is already past is still returned. *)
Theorem get_ignores_expiry :
  forall (SimulateCtx : Type) (s : ArbCache SimulateCtx) (coin : string)
         (e : ArbEntry SimulateCtx) (now : Z),
    map SimulateCtx s !! coin = Some e ->
    expires_at SimulateCtx e <= now ->
    get SimulateCtx s coin = Some (entry_digest SimulateCtx e, entry_sim_ctx SimulateCtx e).
Proof. intros SimulateCtx s coin e now Hm _. unfold get. rewrite Hm. reflexivity. Qed.

Lemma get_ignores_expiry_witness :
  map unit sample_cache !! USDC = Some (mkArbEntry unit [3] tt 1 5000 Public) /\
  expires_at unit (mkArbEntry unit [3] tt 1 5000 Public) <= 9000 /\
  get unit sample_cache USDC = Some ([3], tt).
Proof.
  assert (Hm : map unit sample_cache !! USDC = Some (mkArbEntry unit [3] tt 1 5000 Public)).
  { unfold sample_cache. simpl. apply lookup_insert_eq. }
  split; [exact Hm|]. split; [simpl; lia|].
  exact (get_ignores_expiry unit sample_cache USDC _ 9000 Hm ltac:(simpl; lia)).
Defined.

(** ** Golden-section search keeps its running best *)

Lemma gss_record_max_f :
  forall (OUT : Type) (x f : Z) (o : OUT) (s : GssState OUT),
    max_f OUT s <= max_f OUT (gss_record OUT x f o s).
Proof.
  intros OUT x f o s. unfold gss_record.
  destruct (Z.ltb_spec (max_f OUT s) f); simpl; lia.
Qed.

Lemma gss_body_max_f :
  forall (w : Z) (OUT : Type) (evaluate : Z -> Z * OUT) (s : GssState OUT),
    max_f OUT s <= max_f OUT (gss_body w OUT evaluate s).
Proof.
  intros w OUT evaluate s. unfold gss_body.
  destruct (fl OUT s <? fr OUT s).
  - match goal with |- context [evaluate ?x] => destruct (evaluate x) as [v o] end.
    etransitivity; [|apply gss_record_max_f]. simpl. lia.
  - match goal with |- context [Z.compare ?a ?b] => destruct (Z.compare a b) end;
      match goal with |- context [evaluate ?x] => destruct (evaluate x) as [v o] end;
      (etransitivity; [|apply gss_record_max_f]); simpl; lia.
Qed.

Lemma gss_loop_max_f :
  forall (w : Z) (OUT : Type) (evaluate : Z -> Z * OUT) (fuel : nat) (s : GssState OUT),
    max_f OUT s <= max_f OUT (gss_loop w OUT evaluate fuel s).
Proof.
  intros w OUT evaluate fuel. induction fuel as [|n IH]; intros s; simpl; [lia|].
  destruct (_ && _); [|lia].
  etransitivity; [apply (gss_body_max_f w OUT evaluate s)|apply IH].
Qed.

Lemma gss_inner_max_f :
  forall (w : Z) (OUT : Type) (evaluate : Z -> Z * OUT) (ks : list Z) (s : GssState OUT),
    max_f OUT s <= max_f OUT (gss_inner w OUT evaluate ks s).
Proof.
  intros w OUT evaluate ks. induction ks as [|k ks IH]; intros s; simpl; [lia|].
  destruct (_ <=? _); [lia|].
  match goal with |- context [evaluate ?x] => destruct (evaluate x) as [v o] end.
  etransitivity; [apply gss_record_max_f|apply IH].
Qed.

(** Claim C5: for every evaluation function [evaluate] and every
    [lo < hi], [golden_section_search_maximize] returns (it does not fail
    its assertion) a triple whose maximum value is at least the values at
    both endpoints. *)
Theorem gss_max_ge_endpoints :
  forall (w : Z) (OUT : Type) (evaluate : Z -> Z * OUT) (lo hi : Z),
    lo < hi ->
    exists max_in max_value max_output,
      golden_section_search_maximize w OUT evaluate lo hi = Some (max_in, max_value, max_output) /\
      Z.max (fst (evaluate lo)) (fst (evaluate hi)) <= max_value.
Proof.
  intros w OUT evaluate lo hi Hlt. unfold golden_section_search_maximize.
  replace (negb (lo <? hi)) with false by (symmetry; apply negb_false_iff, Z.ltb_lt; exact Hlt).
  destruct (evaluate lo) as [fl0 out_l0] eqn:Hl.
  destruct (evaluate hi) as [fr0 out_r0] eqn:Hr. simpl fst.
  match goal with |- context [if fl0 <? fr0 then ?a else ?b] =>
    assert (Hmf : Z.max fl0 fr0 <= snd (fst (if fl0 <? fr0 then a else b)))
      by (destruct (Z.ltb_spec fl0 fr0); simpl; lia);
    destruct (if fl0 <? fr0 then a else b) as [[mi mf] mo] end.
  simpl in Hmf.
  match goal with |- context [evaluate ?x] =>
    lazymatch x with lo => fail | hi => fail | _ => destruct (evaluate x) as [fl1 out_l1] end end.
  match goal with |- context [evaluate ?x] =>
    lazymatch x with lo => fail | hi => fail | _ => destruct (evaluate x) as [fr1 out_r1] end end.
  eexists; eexists; eexists. split; [reflexivity|].
  etransitivity; [|apply gss_inner_max_f].
  etransitivity; [|apply gss_loop_max_f].
  etransitivity; [|apply gss_record_max_f]. simpl.
  etransitivity; [|apply gss_record_max_f]. simpl. exact Hmf.
Qed.

Lemma gss_max_ge_endpoints_witness :
  1 < 9 /\
  golden_section_search_maximize 32 unit (fun x => ((x * 10) mod 2 ^ 32, tt)) 1 9 = Some (9, 90, tt) /\
  exists max_in max_value max_output,
    golden_section_search_maximize 32 unit (fun x => ((x * 10) mod 2 ^ 32, tt)) 1 9
      = Some (max_in, max_value, max_output) /\
    Z.max (fst ((fun x => ((x * 10) mod 2 ^ 32, tt)) 1)) (fst ((fun x => ((x * 10) mod 2 ^ 32, tt)) 9))
      <= max_value.
Proof.
  split; [lia|]. split; [vm_compute; reflexivity|].
  apply (gss_max_ge_endpoints 32 unit (fun x => ((x * 10) mod 2 ^ 32, tt)) 1 9). lia.
Defined.

(** ** Arbitrage cache generations *)

Section CacheProofs.
Context {SimulateCtx : Type}.
Abbreviation Cache := (ArbCache SimulateCtx).
Abbreviation cmap := (map SimulateCtx).
Abbreviation cheap := (heap SimulateCtx).

Lemma heap_pop_in :
  forall (h : list HeapItem) (top : HeapItem) (rest : list HeapItem),
    heap_pop h = Some (top, rest) -> forall x, In x rest -> In x h.
Proof.
  induction h as [|y t IH]; intros top rest Hp x Hx; simpl in Hp; [discriminate|].
  destruct (heap_pop t) as [[m t']|] eqn:Ht.
  - destruct (heap_item_le y m); injection Hp as <- <-.
    + right. exact Hx.
    + destruct Hx as [<-|Hx]; [left; reflexivity|]. right. exact (IH m t' eq_refl x Hx).
  - injection Hp as <- <-. destruct Hx.
Qed.

(** Dropping heap items and map entries keeps the invariant. *)
Lemma cache_inv_shrink :
  forall (s s' : Cache),
    generation_counter SimulateCtx s' = generation_counter SimulateCtx s ->
    (forall h, In h (cheap s') -> In h (cheap s)) ->
    (forall c e, cmap s' !! c = Some e -> cmap s !! c = Some e) ->
    cache_inv s -> cache_inv s'.
Proof.
  intros s s' Hc Hh Hm [H1 H2]. split.
  - intros h Hin. rewrite Hc. exact (H1 h (Hh h Hin)).
  - intros c e He h Hin Hco. exact (H2 c e (Hm c e He) h (Hh h Hin) Hco).
Qed.

Lemma lookup_delete_some :
  forall (m : gmap string (ArbEntry SimulateCtx)) (k c : string) (e : ArbEntry SimulateCtx),
    delete k m !! c = Some e -> m !! c = Some e.
Proof.
  intros m k c e H. destruct (decide (k = c)) as [->|Hne].
  - rewrite lookup_delete_eq in H. discriminate.
  - rewrite lookup_delete_ne in H by exact Hne. exact H.
Qed.

Lemma cache_inv_insert :
  forall (coin : string) (pool_id : option Z) (digest : Digest) (ctx : SimulateCtx)
         (source : Source) (now : Z) (s s' : Cache),
    insert SimulateCtx coin pool_id digest ctx source now s = Some s' ->
    cache_inv s -> cache_inv s'.
Proof.
  intros coin pool_id digest ctx source now s s' Hins [H1 H2]. unfold insert in Hins.
  destruct (_ >? u64_max); [discriminate|]. injection Hins as <-. split; simpl.
  - intros h [<-|Hin]; simpl; [lia|]. specialize (H1 h Hin). lia.
  - intros c e He h Hin Hco. destruct (decide (coin = c)) as [<-|Hne].
    + rewrite lookup_insert_eq in He. injection He as <-. simpl.
      destruct Hin as [<-|Hin]; simpl; [lia|]. specialize (H1 h Hin). lia.
    + rewrite lookup_insert_ne in He by exact Hne.
      destruct Hin as [<-|Hin]; [simpl in Hco; congruence|]. exact (H2 c e He h Hin Hco).
Qed.

Lemma cache_inv_pop_one_step :
  forall (now : Z) (s : Cache),
    cache_inv s ->
    match pop_one_step SimulateCtx now s with
    | PopContinue _ s' => cache_inv s'
    | PopReturn _ _ s' => cache_inv s'
    end.
Proof.
  intros now s Hinv. unfold pop_one_step.
  destruct (heap_pop (cheap s)) as [[top rest]|] eqn:Hp; [|exact Hinv].
  pose proof (heap_pop_in _ _ _ Hp) as Hin.
  destruct (cmap s !! h_coin top) as [entry|] eqn:He; simpl; rewrite ?He.
  - destruct (_ =? _); [destruct (now <? _)|];
      (apply (cache_inv_shrink s); [reflexivity | exact Hin | | exact Hinv]);
      simpl; eauto using lookup_delete_some.
  - apply (cache_inv_shrink s); [reflexivity | exact Hin | | exact Hinv]; simpl; eauto.
Qed.

Lemma cache_inv_pop_one :
  forall (now : Z) (s : Cache), cache_inv s -> cache_inv (snd (pop_one SimulateCtx now s)).
Proof.
  intros now s. unfold pop_one. generalize (length (cheap s)) as fuel.
  intros fuel. revert s. induction fuel as [|n IH]; intros s Hinv; simpl; [exact Hinv|].
  pose proof (cache_inv_pop_one_step now s Hinv) as Hs.
  destruct (pop_one_step SimulateCtx now s); [apply IH|]; exact Hs.
Qed.

Lemma cache_inv_remove_expired :
  forall (now : Z) (s : Cache), cache_inv s -> cache_inv (snd (remove_expired SimulateCtx now s)).
Proof.
  intros now s. unfold remove_expired. generalize (length (cheap s)) as fuel.
  intros fuel. revert s. induction fuel as [|n IH]; intros s Hinv; simpl; [exact Hinv|].
  destruct (remove_expired_step SimulateCtx now s) as [e s'|] eqn:Hstep; [|exact Hinv].
  assert (Hs' : cache_inv s').
  { unfold remove_expired_step in Hstep.
    destruct (heap_pop (cheap s)) as [[top rest]|] eqn:Hp; [|discriminate].
    pose proof (heap_pop_in _ _ _ Hp) as Hin.
    destruct (cmap s !! h_coin top) as [entry|] eqn:He.
    - destruct (negb _); [|destruct (_ <=? now)]; injection Hstep as _ <- ||
        discriminate Hstep;
      (apply (cache_inv_shrink s); [reflexivity | exact Hin | | exact Hinv]);
      simpl; eauto using lookup_delete_some.
    - injection Hstep as _ <-.
      apply (cache_inv_shrink s); [reflexivity | exact Hin | | exact Hinv]; simpl; eauto. }
  specialize (IH s' Hs'). destruct (remove_expired_loop SimulateCtx n now s'). exact IH.
Qed.

Lemma cache_inv_run_ops :
  forall (ops : list (CacheOp SimulateCtx)) (s s' : Cache),
    cache_inv s -> run_ops SimulateCtx s ops = Some s' -> cache_inv s'.
Proof.
  induction ops as [|op ops IH]; intros s s' Hinv Hrun; simpl in Hrun.
  - injection Hrun as <-. exact Hinv.
  - destruct (apply_op SimulateCtx s op) as [s1|] eqn:Hop; [|discriminate].
    apply (IH s1); [|exact Hrun].
    destruct op as [c p d x src now|now|now]; simpl in Hop.
    + exact (cache_inv_insert c p d x src now s s1 Hop Hinv).
    + injection Hop as <-. apply cache_inv_pop_one. exact Hinv.
    + injection Hop as <-. apply cache_inv_remove_expired. exact Hinv.
Qed.
End CacheProofs.

(** Claim C6: every cache reached from [ArbCache::new] by a finite
    sequence of [insert], [pop_one] and [remove_expired] (none of which
    panicked) holds at most one entry per coin, the entry's generation is
    at least the generation of every heap item of that coin, and a heap
    top whose coin is absent from the map or whose generation differs
    from the map entry's is popped by one pass of [pop_one] and of
    [remove_expired] with the map left as it was. *)
Theorem cache_generation_invariant :
  forall (SimulateCtx : Type) (expiration : Z) (ops : list (CacheOp SimulateCtx))
         (s : ArbCache SimulateCtx),
    run_ops SimulateCtx (new_cache SimulateCtx expiration) ops = Some s ->
    (forall c e1 e2, map SimulateCtx s !! c = Some e1 -> map SimulateCtx s !! c = Some e2 -> e1 = e2) /\
    (forall c e, map SimulateCtx s !! c = Some e ->
       forall h, In h (heap SimulateCtx s) -> h_coin h = c ->
         h_generation h <= generation SimulateCtx e) /\
    (forall now top rest,
       heap_pop (heap SimulateCtx s) = Some (top, rest) ->
       (map SimulateCtx s !! h_coin top = None \/
        exists e, map SimulateCtx s !! h_coin top = Some e /\ generation SimulateCtx e <> h_generation top) ->
       pop_one_step SimulateCtx now s = PopContinue SimulateCtx (set_heap SimulateCtx rest s) /\
       remove_expired_step SimulateCtx now s = RemoveContinue SimulateCtx None (set_heap SimulateCtx rest s) /\
       map SimulateCtx (set_heap SimulateCtx rest s) = map SimulateCtx s).
Proof.
  intros SimulateCtx expiration ops s Hrun.
  assert (Hinv : cache_inv s).
  { apply (cache_inv_run_ops ops (new_cache SimulateCtx expiration)); [|exact Hrun].
    split; simpl; [intros h []|]. intros c e He. rewrite lookup_empty in He. discriminate. }
  split; [intros c e1 e2 H1 H2; congruence|]. split; [exact (proj2 Hinv)|].
  intros now top rest Hp Hstale. unfold pop_one_step, remove_expired_step. rewrite Hp. simpl.
  destruct Hstale as [Hn | [e [He Hne]]].
  - rewrite Hn. repeat split.
  - rewrite He. apply Z.eqb_neq in Hne. rewrite Hne. repeat split.
Qed.

Lemma cache_generation_invariant_witness :
  exists s, run_ops unit (new_cache unit 5000) sample_ops = Some s /\
    map unit s !! USDC = Some (mkArbEntry unit [4] tt 2 5010 Public) /\
    (forall h, In h (heap unit s) -> h_coin h = USDC ->
       h_generation h <= generation unit (mkArbEntry unit [4] tt 2 5010 Public)).
Proof.
  eexists. split; [vm_compute; reflexivity|].
  split; [vm_compute; reflexivity|].
  exact (proj1 (proj2 (cache_generation_invariant unit 5000 sample_ops _ eq_refl)) USDC _
           ltac:(vm_compute; reflexivity)).
Defined.

(** * Further properties of the arbitrage core *)

(** ** Arbitrage cache operations *)

(** Case on every comparison of integers in the goal and hypotheses. *)
Ltac zbool :=
  repeat match goal with
  | |- context [Z.ltb ?x ?y] => destruct (Z.ltb_spec x y)
  | |- context [Z.leb ?x ?y] => destruct (Z.leb_spec x y)
  | |- context [Z.eqb ?x ?y] => destruct (Z.eqb_spec x y)
  | H : context [Z.ltb ?x ?y] |- _ => destruct (Z.ltb_spec x y)
  | H : context [Z.leb ?x ?y] |- _ => destruct (Z.leb_spec x y)
  | H : context [Z.eqb ?x ?y] |- _ => destruct (Z.eqb_spec x y)
  end; simpl in *.

Lemma heap_item_le_refl : forall h, heap_item_le h h = true.
Proof. intros h. unfold heap_item_le. zbool; lia. Qed.

Lemma heap_item_le_trans :
  forall a b c, heap_item_le a b = true -> heap_item_le b c = true -> heap_item_le a c = true.
Proof. unfold heap_item_le. intros a b c H1 H2. zbool; first [reflexivity | discriminate | lia]. Qed.

Lemma heap_item_le_total :
  forall a b, heap_item_le a b = false -> heap_item_le b a = true.
Proof. unfold heap_item_le. intros a b H. zbool; first [reflexivity | discriminate | lia]. Qed.

Lemma heap_pop_none : forall h, heap_pop h = None -> h = [].
Proof.
  intros [|x t] H; [reflexivity|]. simpl in H. destruct (heap_pop t) as [[m t']|];
    [destruct (heap_item_le x m)|]; discriminate.
Qed.

(** [heap_pop] takes one item out and keeps all the others. *)
Lemma heap_pop_spec :
  forall (h : list HeapItem) (top : HeapItem) (rest : list HeapItem),
    heap_pop h = Some (top, rest) ->
    In top h /\ length h = S (length rest) /\
    (forall x, In x h -> x <> top -> In x rest) /\
    (forall x, In x h -> heap_item_le top x = true).
Proof.
  induction h as [|y t IH]; intros top rest Hp; simpl in Hp; [discriminate|].
  destruct (heap_pop t) as [[m t']|] eqn:Ht.
  - destruct (IH m t' eq_refl) as [Hin [Hlen [Hkeep Hmin]]].
    destruct (heap_item_le y m) eqn:Hym; injection Hp as <- <-.
    + split; [left; reflexivity|]. split; [reflexivity|]. split.
      * intros x [<-|Hx] Hne; [congruence | exact Hx].
      * intros x [<-|Hx]; [apply heap_item_le_refl|]. exact (heap_item_le_trans _ _ _ Hym (Hmin x Hx)).
    + split; [right; exact Hin|]. split; [simpl; rewrite Hlen; reflexivity|]. split.
      * intros x [<-|Hx] Hne; [left; reflexivity|]. right. exact (Hkeep x Hx Hne).
      * intros x [<-|Hx]; [exact (heap_item_le_total _ _ Hym) | exact (Hmin x Hx)].
  - apply heap_pop_none in Ht as ->. injection Hp as <- <-.
    split; [left; reflexivity|]. split; [reflexivity|]. split.
    + intros x [<-|[]] Hne. congruence.
    + intros x [<-|[]]. apply heap_item_le_refl.
Qed.

Section CacheSteps.
Context {SimulateCtx : Type}.
Abbreviation Cache := (ArbCache SimulateCtx).
Abbreviation cmap := (map SimulateCtx).
Abbreviation cheap := (heap SimulateCtx).

Lemma pop_one_step_continue :
  forall now (s s' : Cache),
    pop_one_step SimulateCtx now s = PopContinue SimulateCtx s' ->
    exists top rest, heap_pop (cheap s) = Some (top, rest) /\ cheap s' = rest /\
      generation_counter SimulateCtx s' = generation_counter SimulateCtx s /\
      ((cmap s' = cmap s /\ stale_top s top) \/
       (exists e, cmap s !! h_coin top = Some e /\ generation SimulateCtx e = h_generation top /\
          expires_at SimulateCtx e <= now /\ cmap s' = delete (h_coin top) (cmap s))).
Proof.
  intros now s s' H. unfold pop_one_step in H.
  destruct (heap_pop (cheap s)) as [[top rest]|] eqn:Hp; [|discriminate].
  exists top, rest. split; [reflexivity|]. simpl in H.
  destruct (cmap s !! h_coin top) as [e|] eqn:He.
  - destruct (Z.eqb_spec (generation SimulateCtx e) (h_generation top)) as [Hg|Hg].
    + destruct (Z.ltb_spec now (expires_at SimulateCtx e)); [discriminate|].
      injection H as <-. repeat split. right. exists e. repeat split; assumption.
    + injection H as <-. repeat split. left. split; [reflexivity|]. right. exists e. split; assumption.
  - injection H as <-. repeat split. left. split; [reflexivity|]. left. exact He.
Qed.

Lemma pop_one_step_return :
  forall now (s s' : Cache) r,
    pop_one_step SimulateCtx now s = PopReturn SimulateCtx r s' ->
    (r = None /\ s' = s /\ cheap s = []) \/
    exists top rest e, heap_pop (cheap s) = Some (top, rest) /\
      cmap s !! h_coin top = Some e /\ generation SimulateCtx e = h_generation top /\
      now < expires_at SimulateCtx e /\
      r = Some (mkArbItem SimulateCtx (h_coin top) (h_pool_id top) (entry_digest SimulateCtx e)
                  (entry_sim_ctx SimulateCtx e) (entry_source SimulateCtx e)) /\
      cheap s' = rest /\ cmap s' = delete (h_coin top) (cmap s) /\
      generation_counter SimulateCtx s' = generation_counter SimulateCtx s.
Proof.
  intros now s s' r H. unfold pop_one_step in H.
  destruct (heap_pop (cheap s)) as [[top rest]|] eqn:Hp.
  - right. simpl in H. destruct (cmap s !! h_coin top) as [e|] eqn:He; [|discriminate].
    destruct (Z.eqb_spec (generation SimulateCtx e) (h_generation top)) as [Hg|Hg]; [|discriminate].
    destruct (Z.ltb_spec now (expires_at SimulateCtx e)); [|discriminate].
    injection H as <- <-. exists top, rest, e. repeat split; assumption.
  - left. injection H as <- <-. repeat split. exact (heap_pop_none _ Hp).
Qed.

Lemma remove_expired_step_continue :
  forall now (s s' : Cache) x,
    remove_expired_step SimulateCtx now s = RemoveContinue SimulateCtx x s' ->
    exists top rest, heap_pop (cheap s) = Some (top, rest) /\ cheap s' = rest /\
      generation_counter SimulateCtx s' = generation_counter SimulateCtx s /\
      ((x = None /\ cmap s' = cmap s /\ stale_top s top) \/
       (x = Some (h_coin top) /\
        exists e, cmap s !! h_coin top = Some e /\ generation SimulateCtx e = h_generation top /\
          expires_at SimulateCtx e <= now /\ cmap s' = delete (h_coin top) (cmap s))).
Proof.
  intros now s s' x H. unfold remove_expired_step in H.
  destruct (heap_pop (cheap s)) as [[top rest]|] eqn:Hp; [|discriminate].
  exists top, rest. split; [reflexivity|].
  destruct (cmap s !! h_coin top) as [e|] eqn:He.
  - destruct (Z.eqb_spec (generation SimulateCtx e) (h_generation top)) as [Hg|Hg]; simpl in H.
    + destruct (Z.leb_spec (expires_at SimulateCtx e) now); [|discriminate].
      injection H as <- <-. repeat split. right. split; [reflexivity|]. exists e. repeat split; assumption.
    + injection H as <- <-. repeat split. left. repeat split. right. exists e. split; assumption.
  - injection H as <- <-. repeat split. left. repeat split. left. exact He.
Qed.

Lemma remove_expired_step_break :
  forall now (s : Cache),
    remove_expired_step SimulateCtx now s = RemoveBreak SimulateCtx ->
    cheap s = [] \/
    exists top rest e, heap_pop (cheap s) = Some (top, rest) /\ cmap s !! h_coin top = Some e /\
      generation SimulateCtx e = h_generation top /\ now < expires_at SimulateCtx e.
Proof.
  intros now s H. unfold remove_expired_step in H.
  destruct (heap_pop (cheap s)) as [[top rest]|] eqn:Hp; [|left; exact (heap_pop_none _ Hp)].
  right. destruct (cmap s !! h_coin top) as [e|] eqn:He; [|discriminate].
  destruct (Z.eqb_spec (generation SimulateCtx e) (h_generation top)) as [Hg|Hg]; simpl in H; [|discriminate].
  destruct (Z.leb_spec (expires_at SimulateCtx e) now); [discriminate|].
  exists top, rest, e. repeat split; assumption.
Qed.

(** Popping a stale top, or the top together with its coin's entry,
    keeps the cover. *)
Lemma cache_cover_pop :
  forall (s s' : Cache) top rest,
    cache_cover s -> heap_pop (cheap s) = Some (top, rest) -> cheap s' = rest ->
    (cmap s' = cmap s /\ stale_top s top) \/ cmap s' = delete (h_coin top) (cmap s) ->
    cache_cover s'.
Proof.
  intros s s' top rest Hc Hp Hh Hcase c e He.
  destruct (heap_pop_spec _ _ _ Hp) as [_ [_ [Hkeep _]]].
  assert (He0 : cmap s !! c = Some e /\ (h_coin top = c -> h_generation top <> generation SimulateCtx e)).
  { destruct Hcase as [[Hm [Hn | [e0 [He0 Hne]]]] | Hm]; rewrite Hm in He.
    - split; [exact He|]. intros <-. congruence.
    - split; [exact He|]. intros <-. rewrite He0 in He. injection He as <-. congruence.
    - destruct (decide (h_coin top = c)) as [<-|Hne].
      + rewrite lookup_delete_eq in He. discriminate.
      + rewrite lookup_delete_ne in He by exact Hne. split; [exact He | intros; contradiction]. }
  destruct He0 as [He0 Hnt]. destruct (Hc c e He0) as [[h [Hin [Hco Hg]]] Hx].
  split.
  - exists h. rewrite Hh. split; [|split; assumption].
    apply Hkeep; [exact Hin|]. intros ->. exact (Hnt Hco Hg).
  - intros h' Hin' Hco' Hg'. rewrite Hh in Hin'.
    apply Hx; [|assumption|assumption].
    destruct (heap_pop_spec _ _ _ Hp) as [_ [_ [_ _]]].
    apply (heap_pop_in _ _ _ Hp). exact Hin'.
Qed.
End CacheSteps.

Section CacheOps.
Context {SimulateCtx : Type}.
Abbreviation Cache := (ArbCache SimulateCtx).
Abbreviation cmap := (map SimulateCtx).
Abbreviation cheap := (heap SimulateCtx).

Lemma cache_cover_insert :
  forall coin pool_id digest (ctx : SimulateCtx) source now (s s' : Cache),
    insert SimulateCtx coin pool_id digest ctx source now s = Some s' ->
    cache_inv s -> cache_cover s -> cache_cover s'.
Proof.
  intros coin pool_id digest ctx source now s s' Hins [H1 _] Hc. unfold insert in Hins.
  destruct (_ >? u64_max); [discriminate|]. injection Hins as <-.
  intros c e He. simpl in He |- *. destruct (decide (coin = c)) as [<-|Hne].
  - rewrite lookup_insert_eq in He. injection He as <-. simpl. split.
    + eexists. split; [left; reflexivity|]. split; reflexivity.
    + intros h [<-|Hin] _ Hg; [reflexivity|]. specialize (H1 h Hin). lia.
  - rewrite lookup_insert_ne in He by exact Hne. destruct (Hc c e He) as [[h [Hin Hh]] Hx]. split.
    + exists h. split; [right; exact Hin | exact Hh].
    + intros h' [<-|Hin'] Hco Hg; [simpl in Hco; congruence|]. exact (Hx h' Hin' Hco Hg).
Qed.

Lemma pop_one_loop_sub :
  forall fuel now (s : Cache) c e,
    cmap (snd (pop_one_loop SimulateCtx fuel now s)) !! c = Some e -> cmap s !! c = Some e.
Proof.
  induction fuel as [|n IH]; intros now s c e H; simpl in H; [exact H|].
  destruct (pop_one_step SimulateCtx now s) as [s1|r s1] eqn:Hst.
  - apply IH in H. destruct (pop_one_step_continue now s s1 Hst) as [top [rest [_ [_ [_ Hm]]]]].
    destruct Hm as [[Hm _] | [e0 [_ [_ [_ Hm]]]]]; rewrite Hm in H; [exact H|]. exact (lookup_delete_some _ _ _ _ H).
  - simpl in H. destruct (pop_one_step_return now s s1 r Hst) as [[_ [Hm _]] | Hr]; [rewrite Hm in H; exact H|].
    destruct Hr as [top [rest [e0 [_ [_ [_ [_ [_ [_ [Hm _]]]]]]]]]]. rewrite Hm in H. exact (lookup_delete_some _ _ _ _ H).
Qed.

Lemma remove_expired_loop_sub :
  forall fuel now (s : Cache) c e,
    cmap (snd (remove_expired_loop SimulateCtx fuel now s)) !! c = Some e -> cmap s !! c = Some e.
Proof.
  induction fuel as [|n IH]; intros now s c e H; simpl in H; [exact H|].
  destruct (remove_expired_step SimulateCtx now s) as [x s1|] eqn:Hst; [|exact H].
  destruct (remove_expired_loop SimulateCtx n now s1) as [cs s2] eqn:Hl. simpl in H.
  assert (H1 : cmap s1 !! c = Some e) by (apply (IH now s1); rewrite Hl; exact H).
  destruct (remove_expired_step_continue now s s1 x Hst) as [top [rest [_ [_ [_ Hm]]]]].
  destruct Hm as [[_ [Hm _]] | [_ [e0 [_ [_ [_ Hm]]]]]]; rewrite Hm in H1; [exact H1|]. exact (lookup_delete_some _ _ _ _ H1).
Qed.

Lemma cache_wf_pop_one :
  forall now (s : Cache), cache_inv s -> cache_cover s -> cache_cover (snd (pop_one SimulateCtx now s)).
Proof.
  intros now s. unfold pop_one. generalize (length (cheap s)) as fuel. intros fuel.
  revert s. induction fuel as [|n IH]; intros s Hi Hc; simpl; [exact Hc|].
  pose proof (cache_inv_pop_one_step now s Hi) as Hi1.
  destruct (pop_one_step SimulateCtx now s) as [s1|r s1] eqn:Hst.
  - apply IH; [exact Hi1|].
    destruct (pop_one_step_continue now s s1 Hst) as [top [rest [Hp [Hh [_ Hm]]]]].
    apply (cache_cover_pop s s1 top rest Hc Hp Hh).
    destruct Hm as [Hm | [e [_ [_ [_ Hm]]]]]; [left; exact Hm | right; exact Hm].
  - simpl. destruct (pop_one_step_return now s s1 r Hst) as [[_ [-> _]] | Hr]; [exact Hc|].
    destruct Hr as [top [rest [e [Hp [_ [_ [_ [_ [Hh [Hm _]]]]]]]]]].
    apply (cache_cover_pop s s1 top rest Hc Hp Hh). right. exact Hm.
Qed.

Lemma cache_wf_remove_expired_loop :
  forall fuel now (s : Cache), cache_cover s ->
    cache_cover (snd (remove_expired_loop SimulateCtx fuel now s)).
Proof.
  induction fuel as [|n IH]; intros now s Hc; simpl; [exact Hc|].
  destruct (remove_expired_step SimulateCtx now s) as [x s1|] eqn:Hst; [|exact Hc].
  destruct (remove_expired_loop SimulateCtx n now s1) as [cs s2] eqn:Hl. simpl.
  replace s2 with (snd (remove_expired_loop SimulateCtx n now s1)) by (rewrite Hl; reflexivity).
  apply IH.
  destruct (remove_expired_step_continue now s s1 x Hst) as [top [rest [Hp [Hh [_ Hm]]]]].
  apply (cache_cover_pop s s1 top rest Hc Hp Hh).
  destruct Hm as [[_ Hm] | [_ [e [_ [_ [_ Hm]]]]]]; [left; exact Hm | right; exact Hm].
Qed.

Lemma cache_wf_run_ops :
  forall (ops : list (CacheOp SimulateCtx)) (s s' : Cache),
    cache_inv s -> cache_cover s -> run_ops SimulateCtx s ops = Some s' -> cache_cover s'.
Proof.
  induction ops as [|op ops IH]; intros s s' Hi Hc Hrun; simpl in Hrun.
  - injection Hrun as <-. exact Hc.
  - destruct (apply_op SimulateCtx s op) as [s1|] eqn:Hop; [|discriminate].
    assert (Hi1 : cache_inv s1).
    { destruct op as [c p d x src now|now|now]; simpl in Hop.
      - exact (cache_inv_insert c p d x src now s s1 Hop Hi).
      - injection Hop as <-. apply cache_inv_pop_one. exact Hi.
      - injection Hop as <-. apply cache_inv_remove_expired. exact Hi. }
    apply (IH s1); [exact Hi1| |exact Hrun].
    destruct op as [c p d x src now|now|now]; simpl in Hop.
    + exact (cache_cover_insert c p d x src now s s1 Hop Hi Hc).
    + injection Hop as <-. apply cache_wf_pop_one; assumption.
    + injection Hop as <-. apply cache_wf_remove_expired_loop. exact Hc.
Qed.

Lemma remove_expired_loop_fresh :
  forall fuel now (s : Cache),
    cache_cover s -> (length (cheap s) <= fuel)%nat ->
    forall c e, cmap (snd (remove_expired_loop SimulateCtx fuel now s)) !! c = Some e ->
      now < expires_at SimulateCtx e.
Proof.
  induction fuel as [|n IH]; intros now s Hc Hlen c e He.
  - simpl in He. destruct (Hc c e He) as [[h [Hin _]] _].
    destruct (cheap s); [destruct Hin | simpl in Hlen; lia].
  - simpl in He. destruct (remove_expired_step SimulateCtx now s) as [x s1|] eqn:Hst.
    + destruct (remove_expired_loop SimulateCtx n now s1) as [cs s2] eqn:Hl. simpl in He.
      destruct (remove_expired_step_continue now s s1 x Hst) as [top [rest [Hp [Hh [_ Hm]]]]].
      destruct (heap_pop_spec _ _ _ Hp) as [_ [Hl' _]].
      refine (IH now s1 _ _ c e _); [| |rewrite Hl; exact He].
      * apply (cache_cover_pop s s1 top rest Hc Hp Hh).
        destruct Hm as [[_ Hm] | [_ [e0 [_ [_ [_ Hm]]]]]]; [left; exact Hm | right; exact Hm].
      * rewrite Hh. lia.
    + destruct (Hc c e He) as [[h [Hin [Hco Hg]]] Hx].
      destruct (remove_expired_step_break now s Hst) as [Hnil | [top [rest [e0 [Hp [He0 [Hg0 Hlt]]]]]]].
      * rewrite Hnil in Hin. destruct Hin.
      * destruct (heap_pop_spec _ _ _ Hp) as [Htop [_ [_ Hmin]]].
        pose proof (Hmin h Hin) as Hle.
        pose proof (proj2 (Hc _ _ He0) top Htop eq_refl (eq_sym Hg0)) as Hte.
        pose proof (Hx h Hin Hco Hg) as Hhe.
        unfold heap_item_le in Hle. zbool; lia.
Qed.
End CacheOps.

Section CacheResults.
Context {SimulateCtx : Type}.
Abbreviation Cache := (ArbCache SimulateCtx).
Abbreviation cmap := (map SimulateCtx).
Abbreviation cheap := (heap SimulateCtx).

Lemma cache_reachable_wf :
  forall dur (ops : list (CacheOp SimulateCtx)) (s : Cache),
    run_ops SimulateCtx (new_cache SimulateCtx dur) ops = Some s -> cache_inv s /\ cache_cover s.
Proof.
  intros dur ops s H.
  assert (Hi : cache_inv (new_cache SimulateCtx dur)).
  { split; simpl; [intros h []|]. intros c e He. rewrite lookup_empty in He. discriminate. }
  assert (Hc : cache_cover (new_cache SimulateCtx dur)).
  { intros c e He. simpl in He. rewrite lookup_empty in He. discriminate. }
  split; [exact (cache_inv_run_ops ops _ s Hi H) | exact (cache_wf_run_ops ops _ s Hi Hc H)].
Qed.

Lemma pop_one_loop_returns :
  forall fuel now (s s' : Cache) item,
    pop_one_loop SimulateCtx fuel now s = (Some item, s') ->
    exists e, cmap s !! item_coin SimulateCtx item = Some e /\ now < expires_at SimulateCtx e /\
      item_tx_digest SimulateCtx item = entry_digest SimulateCtx e /\
      item_sim_ctx SimulateCtx item = entry_sim_ctx SimulateCtx e /\
      item_source SimulateCtx item = entry_source SimulateCtx e /\
      cmap s' !! item_coin SimulateCtx item = None.
Proof.
  induction fuel as [|n IH]; intros now s s' item H; simpl in H; [discriminate|].
  destruct (pop_one_step SimulateCtx now s) as [s1|r s1] eqn:Hst.
  - destruct (IH now s1 s' item H) as [e [He Hrest]]. exists e. split; [|exact Hrest].
    destruct (pop_one_step_continue now s s1 Hst) as [top [rest [_ [_ [_ Hm]]]]].
    destruct Hm as [[Hm _] | [e0 [_ [_ [_ Hm]]]]]; rewrite Hm in He; [exact He|].
    exact (lookup_delete_some _ _ _ _ He).
  - injection H as -> ->.
    destruct (pop_one_step_return now s s' (Some item) Hst) as [[Hr _] | Hr]; [discriminate|].
    destruct Hr as [top [rest [e [_ [He [_ [Hlt [Hi [_ [Hm _]]]]]]]]]].
    injection Hi as ->. simpl. exists e. repeat split; try assumption.
    rewrite Hm. apply lookup_delete_eq.
Qed.

Lemma pop_one_loop_live :
  forall fuel now (s : Cache),
    cache_cover s -> (length (cheap s) <= fuel)%nat ->
    forall c e', cmap s !! c = Some e' -> now < expires_at SimulateCtx e' ->
    match fst (pop_one_loop SimulateCtx fuel now s) with
    | None => False
    | Some item => exists e, cmap s !! item_coin SimulateCtx item = Some e /\
                     expires_at SimulateCtx e <= expires_at SimulateCtx e'
    end.
Proof.
  induction fuel as [|n IH]; intros now s Hc Hlen c e' He' Hlive.
  - destruct (Hc c e' He') as [[h [Hin _]] _].
    destruct (cheap s); [destruct Hin | simpl in Hlen; lia].
  - simpl. destruct (pop_one_step SimulateCtx now s) as [s1|r s1] eqn:Hst.
    + destruct (pop_one_step_continue now s s1 Hst) as [top [rest [Hp [Hh [_ Hm]]]]].
      destruct (heap_pop_spec _ _ _ Hp) as [_ [Hl' _]].
      assert (Hc1 : cache_cover s1).
      { apply (cache_cover_pop s s1 top rest Hc Hp Hh).
        destruct Hm as [Hm | [e0 [_ [_ [_ Hm]]]]]; [left; exact Hm | right; exact Hm]. }
      assert (He1 : cmap s1 !! c = Some e').
      { destruct Hm as [[Hm _] | [e0 [He0 [_ [Hexp Hm]]]]]; rewrite Hm; [exact He'|].
        destruct (decide (h_coin top = c)) as [<-|Hne].
        - rewrite He0 in He'. injection He' as <-. lia.
        - rewrite lookup_delete_ne by exact Hne. exact He'. }
      pose proof (IH now s1 Hc1 ltac:(rewrite Hh; lia) c e' He1 Hlive) as HI.
      destruct (fst (pop_one_loop SimulateCtx n now s1)) as [item|]; [|exact HI].
      destruct HI as [e [He Hle]]. exists e. split; [|exact Hle].
      destruct Hm as [[Hm _] | [e0 [_ [_ [_ Hm]]]]]; rewrite Hm in He; [exact He|].
      exact (lookup_delete_some _ _ _ _ He).
    + simpl. destruct (pop_one_step_return now s s1 r Hst) as [[_ [_ Hnil]] | Hr].
      * destruct (Hc c e' He') as [[h [Hin _]] _]. rewrite Hnil in Hin. destruct Hin.
      * destruct Hr as [top [rest [e [Hp [He [Hg [_ [-> _]]]]]]]]. simpl.
        exists e. split; [exact He|].
        destruct (heap_pop_spec _ _ _ Hp) as [Htop [_ [_ Hmin]]].
        destruct (Hc c e' He') as [[h [Hin [Hco Hgh]]] Hx].
        pose proof (Hmin h Hin) as Hle.
        pose proof (proj2 (Hc _ _ He) top Htop eq_refl (eq_sym Hg)) as Hte.
        pose proof (Hx h Hin Hco Hgh) as Hhe.
        unfold heap_item_le in Hle. zbool; lia.
Qed.

Lemma remove_expired_loop_returns :
  forall fuel now (s : Cache),
    NoDup (fst (remove_expired_loop SimulateCtx fuel now s)) /\
    forall c, In c (fst (remove_expired_loop SimulateCtx fuel now s)) ->
      exists e, cmap s !! c = Some e /\ expires_at SimulateCtx e <= now /\
        cmap (snd (remove_expired_loop SimulateCtx fuel now s)) !! c = None.
Proof.
  induction fuel as [|n IH]; intros now s; simpl.
  - split; [constructor | intros c []].
  - destruct (remove_expired_step SimulateCtx now s) as [x s1|] eqn:Hst;
      [|split; [constructor | intros c []]].
    pose proof (remove_expired_loop_sub n now s1) as Hsub.
    destruct (IH now s1) as [Hnd Hin].
    destruct (remove_expired_loop SimulateCtx n now s1) as [cs s2] eqn:Hl. simpl in *.
    destruct (remove_expired_step_continue now s s1 x Hst) as [top [rest [_ [_ [_ Hm]]]]].
    destruct Hm as [[-> [Hm _]] | [-> [e0 [He0 [_ [Hexp Hm]]]]]].
    + split; [exact Hnd|]. intros c Hc. destruct (Hin c Hc) as [e [He Hrest]].
      rewrite Hm in He. exists e. split; [exact He | exact Hrest].
    + split.
      * constructor; [|exact Hnd]. intros Hc%list_elem_of_In. destruct (Hin _ Hc) as [e [He _]].
        rewrite Hm, lookup_delete_eq in He. discriminate.
      * intros c [<-|Hc].
        -- exists e0. split; [exact He0|]. split; [exact Hexp|].
           destruct (cmap s2 !! h_coin top) as [e2|] eqn:He2; [|reflexivity].
           apply Hsub in He2. rewrite Hm, lookup_delete_eq in He2. discriminate.
        -- destruct (Hin c Hc) as [e [He Hrest]]. exists e. split; [|exact Hrest].
           rewrite Hm in He. exact (lookup_delete_some _ _ _ _ He).
Qed.

(** X1: [ArbCache::insert] panics only when the generation counter is at
    [u64::MAX]; otherwise a following [get] of the inserted coin returns
    the inserted digest and simulation context, and [get] of every other
    coin is unchanged. *)
Theorem insert_get_roundtrip :
  forall coin pool_id digest (ctx : SimulateCtx) source now (s : Cache),
    match insert SimulateCtx coin pool_id digest ctx source now s with
    | None => generation_counter SimulateCtx s + 1 > u64_max
    | Some s' => generation_counter SimulateCtx s + 1 <= u64_max /\
        get SimulateCtx s' coin = Some (digest, ctx) /\
        forall c, c <> coin -> get SimulateCtx s' c = get SimulateCtx s c
    end.
Proof.
  intros coin pool_id digest ctx source now s. unfold insert.
  destruct (Z.gtb_spec (generation_counter SimulateCtx s + 1) u64_max) as [Hgt|Hle]; [lia|].
  split; [lia|]. unfold get. simpl. split.
  - rewrite lookup_insert_eq. reflexivity.
  - intros c Hne. rewrite lookup_insert_ne by congruence. reflexivity.
Qed.

(** X2: when [pop_one] returns an item, the item is built from the map
    entry its coin had before the call, that entry had not expired
    ([now < expires_at]), the coin has no entry afterwards, and the call
    added no entry to the map. *)
Theorem pop_one_returns_live_entry :
  forall now (s s' : Cache) item,
    pop_one SimulateCtx now s = (Some item, s') ->
    (exists e, cmap s !! item_coin SimulateCtx item = Some e /\ now < expires_at SimulateCtx e /\
      item_tx_digest SimulateCtx item = entry_digest SimulateCtx e /\
      item_sim_ctx SimulateCtx item = entry_sim_ctx SimulateCtx e /\
      item_source SimulateCtx item = entry_source SimulateCtx e) /\
    cmap s' !! item_coin SimulateCtx item = None /\
    (forall c e, cmap s' !! c = Some e -> cmap s !! c = Some e).
Proof.
  intros now s s' item H. unfold pop_one in H.
  destruct (pop_one_loop_returns _ now s s' item H) as [e [He [Hlt [Hd [Hx [Hsrc Hnone]]]]]].
  split; [exists e; repeat split; assumption|]. split; [exact Hnone|].
  intros c e' He'. apply (pop_one_loop_sub (length (cheap s)) now s). rewrite H. exact He'.
Qed.

(** X3: the coins returned by [remove_expired] are pairwise distinct; each
    had a map entry with [expires_at <= now] before the call and has no
    entry afterwards. *)
Theorem remove_expired_returns_expired :
  forall now (s : Cache),
    NoDup (fst (remove_expired SimulateCtx now s)) /\
    forall c, In c (fst (remove_expired SimulateCtx now s)) ->
      exists e, cmap s !! c = Some e /\ expires_at SimulateCtx e <= now /\
        cmap (snd (remove_expired SimulateCtx now s)) !! c = None.
Proof.
  intros now s. exact (remove_expired_loop_returns (length (cheap s)) now s).
Qed.

(** X4: on a cache reached from [ArbCache::new] by [insert], [pop_one] and
    [remove_expired], every entry left after [remove_expired now] was
    already in the map and has [now < expires_at]: no expired entry
    survives the call. *)
Theorem remove_expired_leaves_no_expired :
  forall dur (ops : list (CacheOp SimulateCtx)) (s : Cache) now,
    run_ops SimulateCtx (new_cache SimulateCtx dur) ops = Some s ->
    forall c e, cmap (snd (remove_expired SimulateCtx now s)) !! c = Some e ->
      cmap s !! c = Some e /\ now < expires_at SimulateCtx e.
Proof.
  intros dur ops s now Hrun c e He.
  destruct (cache_reachable_wf dur ops s Hrun) as [_ Hc]. split.
  - exact (remove_expired_loop_sub _ now s c e He).
  - exact (remove_expired_loop_fresh (length (cheap s)) now s Hc (Nat.le_refl _) c e He).
Qed.

(** X5: on a cache reached from [ArbCache::new] by [insert], [pop_one] and
    [remove_expired], if some entry has not expired at [now] then
    [pop_one now] returns an item, and the item's entry expires no later
    than any unexpired entry. *)
Theorem pop_one_earliest_live :
  forall dur (ops : list (CacheOp SimulateCtx)) (s : Cache) now c e',
    run_ops SimulateCtx (new_cache SimulateCtx dur) ops = Some s ->
    cmap s !! c = Some e' -> now < expires_at SimulateCtx e' ->
    exists item e, fst (pop_one SimulateCtx now s) = Some item /\
      cmap s !! item_coin SimulateCtx item = Some e /\
      expires_at SimulateCtx e <= expires_at SimulateCtx e'.
Proof.
  intros dur ops s now c e' Hrun He' Hlive.
  destruct (cache_reachable_wf dur ops s Hrun) as [_ Hc].
  pose proof (pop_one_loop_live (length (cheap s)) now s Hc (Nat.le_refl _) c e' He' Hlive) as H.
  unfold pop_one. destruct (fst (pop_one_loop SimulateCtx (length (cheap s)) now s)) as [item|];
    [|destruct H].
  destruct H as [e [He Hle]]. exists item, e. split; [reflexivity|]. split; assumption.
Qed.
End CacheResults.

Lemma pop_one_returns_live_entry_witness :
  exists item s', pop_one unit 100 sample_cache = (Some item, s') /\
    map unit s' !! item_coin unit item = None /\
    (forall c e, map unit s' !! c = Some e -> map unit sample_cache !! c = Some e).
Proof.
  exists (mkArbItem unit USDC None [3] tt Public),
         (mkArbCache unit (delete USDC (map unit sample_cache)) [] 1 5000).
  assert (H : pop_one unit 100 sample_cache =
              (Some (mkArbItem unit USDC None [3] tt Public),
               mkArbCache unit (delete USDC (map unit sample_cache)) [] 1 5000))
    by (vm_compute; reflexivity).
  split; [exact H|]. exact (proj2 (pop_one_returns_live_entry 100 sample_cache _ _ H)).
Defined.

Lemma remove_expired_leaves_no_expired_witness :
  exists s, run_ops unit (new_cache unit 5000) sample_ops = Some s /\
    forall c e, map unit (snd (remove_expired unit 5005 s)) !! c = Some e ->
      map unit s !! c = Some e /\ 5005 < expires_at unit e.
Proof.
  eexists. split; [vm_compute; reflexivity|].
  exact (remove_expired_leaves_no_expired 5000 sample_ops _ 5005 ltac:(vm_compute; reflexivity)).
Defined.

Lemma pop_one_earliest_live_witness :
  exists s, run_ops unit (new_cache unit 5000) sample_ops = Some s /\
    exists item e, fst (pop_one unit 5005 s) = Some item /\
      map unit s !! item_coin unit item = Some e /\
      expires_at unit e <= expires_at unit (mkArbEntry unit [4] tt 2 5010 Public).
Proof.
  eexists. split; [vm_compute; reflexivity|].
  exact (pop_one_earliest_live 5000 sample_ops _ 5005 USDC (mkArbEntry unit [4] tt 2 5010 Public)
           ltac:(vm_compute; reflexivity) ltac:(vm_compute; reflexivity) ltac:(simpl; lia)).
Defined.

(** ** Golden-section search returns a consistent triple *)

Lemma some_triple_inj {A B C : Type} (a a' : A) (b b' : B) (c c' : C) :
  Some (a, b, c) = Some (a', b', c') -> a = a' /\ b = b' /\ c = c'.
Proof. intros H. injection H. auto. Qed.

Section GssConsistent.
Variables (w : Z) (OUT : Type) (evaluate : Z -> Z * OUT).

Ltac split_evaluate :=
  repeat match goal with
  | |- context [match evaluate ?x with pair _ _ => _ end] =>
      let E := fresh "E" in destruct (evaluate x) eqn:E
  end.

Lemma gss_record_consistent :
  forall x f o (s : GssState OUT),
    evaluate (max_in OUT s) = (max_f OUT s, max_out OUT s) -> evaluate x = (f, o) ->
    evaluate (max_in OUT (gss_record OUT x f o s)) =
      (max_f OUT (gss_record OUT x f o s), max_out OUT (gss_record OUT x f o s)).
Proof.
  intros x f o s Hs Hx. unfold gss_record. destruct (max_f OUT s <? f); simpl; assumption.
Qed.

Lemma gss_body_consistent :
  forall s : GssState OUT,
    evaluate (max_in OUT s) = (max_f OUT s, max_out OUT s) ->
    evaluate (max_in OUT (gss_body w OUT evaluate s)) =
      (max_f OUT (gss_body w OUT evaluate s), max_out OUT (gss_body w OUT evaluate s)).
Proof.
  intros s Hs. unfold gss_body. cbv zeta.
  destruct (fl OUT s <? fr OUT s); [|destruct (Z.compare _ _)]; split_evaluate;
    apply gss_record_consistent; assumption.
Qed.

Lemma gss_loop_consistent :
  forall fuel (s : GssState OUT),
    evaluate (max_in OUT s) = (max_f OUT s, max_out OUT s) ->
    evaluate (max_in OUT (gss_loop w OUT evaluate fuel s)) =
      (max_f OUT (gss_loop w OUT evaluate fuel s), max_out OUT (gss_loop w OUT evaluate fuel s)).
Proof.
  induction fuel as [|n IH]; intros s Hs; [exact Hs|]. cbn [gss_loop].
  destruct (_ && _); [|exact Hs]. apply IH. apply gss_body_consistent. exact Hs.
Qed.

Lemma gss_inner_consistent :
  forall ks (s : GssState OUT),
    evaluate (max_in OUT s) = (max_f OUT s, max_out OUT s) ->
    evaluate (max_in OUT (gss_inner w OUT evaluate ks s)) =
      (max_f OUT (gss_inner w OUT evaluate ks s), max_out OUT (gss_inner w OUT evaluate ks s)).
Proof.
  induction ks as [|k ks IH]; intros s Hs; [exact Hs|]. cbn [gss_inner]. cbv zeta.
  destruct (_ <=? _); [exact Hs|]. split_evaluate. apply IH.
  apply gss_record_consistent; assumption.
Qed.

Lemma gss_returns_evaluation :
  forall lo hi mi mv mo,
    golden_section_search_maximize w OUT evaluate lo hi = Some (mi, mv, mo) ->
    evaluate mi = (mv, mo).
Proof.
  intros lo hi mi mv mo H. unfold golden_section_search_maximize in H.
  destruct (negb (lo <? hi)); [discriminate|].
  revert H. destruct (evaluate lo) as [fl0 out_l0] eqn:Hl.
  destruct (evaluate hi) as [fr0 out_r0] eqn:Hr.
  destruct (fl0 <? fr0); cbv beta iota; split_evaluate;
    intros H; apply some_triple_inj in H; destruct H as [<- [<- <-]];
    apply gss_inner_consistent, gss_loop_consistent, gss_record_consistent; try assumption;
    apply gss_record_consistent; assumption.
Qed.

(** X6: when [golden_section_search_maximize] returns [(max_in,
    max_value, max_output)], the triple is one evaluation of the goal:
    [evaluate max_in = (max_value, max_output)]. *)
Theorem gss_result_consistent :
  forall lo hi mi mv mo,
    golden_section_search_maximize w OUT evaluate lo hi = Some (mi, mv, mo) ->
    evaluate mi = (mv, mo).
Proof. exact gss_returns_evaluation. Qed.
End GssConsistent.

Lemma gss_result_consistent_witness :
  golden_section_search_maximize 32 unit (fun x => ((x * 10) mod 2 ^ 32, tt)) 1 9 = Some (9, 90, tt) /\
  (fun x => ((x * 10) mod 2 ^ 32, tt)) 9 = (90, tt).
Proof.
  assert (H : golden_section_search_maximize 32 unit (fun x => ((x * 10) mod 2 ^ 32, tt)) 1 9
              = Some (9, 90, tt)) by (vm_compute; reflexivity).
  split; [exact H|]. exact (gss_result_consistent 32 unit _ 1 9 9 90 tt H).
Defined.

(** ** Best path selection *)

Section FindBestProofs.
Variable get_trade_result : Path -> Z -> TradeType -> result TradeResult.

Lemma join_best_spec :
  forall done bi b,
    let '(bi', b') := join_best done bi b in
    ((bi', b') = (bi, b) \/ In (bi', Ok b') done) /\
    tres_amount_out b <= tres_amount_out b' /\
    forall idx t, In (idx, Ok t) done -> tres_amount_out t <= tres_amount_out b'.
Proof.
  induction done as [|[idx r] rest IH]; intros bi b; simpl.
  - split; [left; reflexivity|]. split; [lia | intros _ _ []].
  - destruct r as [t|e].
    + destruct (Z.ltb_spec (tres_amount_out b) (tres_amount_out t)) as [Hlt|Hge].
      * specialize (IH idx t). destruct (join_best rest idx t) as [bi' b'].
        destruct IH as [Hsrc [Hle Hall]]. split; [|split; [lia|]].
        -- destruct Hsrc as [Heq|Hin]; [injection Heq as -> ->; right; left; reflexivity|].
           right; right; exact Hin.
        -- intros j t' [Heq|Hin]; [injection Heq as _ <-; lia | exact (Hall j t' Hin)].
      * specialize (IH bi b). destruct (join_best rest bi b) as [bi' b'].
        destruct IH as [Hsrc [Hle Hall]]. split; [|split; [lia|]].
        -- destruct Hsrc as [Heq|Hin]; [left; exact Heq | right; right; exact Hin].
        -- intros j t' [Heq|Hin]; [injection Heq as _ <-; lia | exact (Hall j t' Hin)].
    + specialize (IH bi b). destruct (join_best rest bi b) as [bi' b'].
      destruct IH as [Hsrc [Hle Hall]]. split; [|split; [lia|]].
      * destruct Hsrc as [Heq|Hin]; [left; exact Heq | right; right; exact Hin].
      * intros j t' [Heq|Hin]; [discriminate | exact (Hall j t' Hin)].
Qed.

Lemma spawned_indices_spec :
  forall paths i, In i (spawned_indices paths) ->
    exists p, nth_error paths i = Some p /\ nth i paths (mkPath []) = p /\ path_is_empty p = false.
Proof.
  intros paths i Hin. unfold spawned_indices in Hin.
  apply filter_In in Hin as [Hseq Hne]. apply in_seq in Hseq.
  destruct (nth_error paths i) as [p|] eqn:Hn.
  - exists p. split; [reflexivity|]. assert (Hnth : nth i paths (mkPath []) = p)
      by (apply nth_error_nth; exact Hn).
    rewrite Hnth in Hne. split; [exact Hnth|]. destruct (path_is_empty p); [discriminate | reflexivity].
  - apply nth_error_None in Hn. lia.
Qed.

(** X7: for any completion order of the spawned tasks (or a prefix of it),
    [find_best_path_exact_in] either returns a trade on a non-empty input
    path [paths[i]] whose [get_trade_result] completed with [Ok t], with
    the caller's [amount_in], [t]'s output, gas cost and cache misses,
    [amount_out > 0], and [amount_out] at least that of every other
    completed [Ok] trade; or it fails with ["zero amount_out"], and then
    no completed trade had a positive [amount_out]. *)
Theorem find_best_path_exact_in_best :
  forall paths amount_in trade_type order,
    (forall i, In i order -> In i (spawned_indices paths)) ->
    match find_best_path_exact_in get_trade_result paths amount_in trade_type order with
    | Ok r =>
        exists i t, In i order /\ nth_error paths i = Some (ptr_path r) /\
          path_is_empty (ptr_path r) = false /\
          get_trade_result (ptr_path r) amount_in trade_type = Ok t /\
          r = mkPathTradeResult (ptr_path r) amount_in (tres_amount_out t)
                (tres_gas_cost t) (tres_cache_misses t) /\
          0 < tres_amount_out t /\
          forall j t', In j order ->
            get_trade_result (nth j paths (mkPath [])) amount_in trade_type = Ok t' ->
            tres_amount_out t' <= tres_amount_out t
    | Err e =>
        e = "zero amount_out" /\
        forall j t', In j order ->
          get_trade_result (nth j paths (mkPath [])) amount_in trade_type = Ok t' ->
          tres_amount_out t' <= 0
    end%string.
Proof.
  intros paths amount_in trade_type order Hord. unfold find_best_path_exact_in.
  set (done := List.map (fun idx => (idx, get_trade_result (nth idx paths (mkPath [])) amount_in trade_type))
                 order).
  assert (Hdone : forall j t', In j order ->
            get_trade_result (nth j paths (mkPath [])) amount_in trade_type = Ok t' -> In (j, Ok t') done).
  { intros j t' Hj Ht. subst done. apply in_map_iff. exists j. rewrite Ht. split; [reflexivity | exact Hj]. }
  pose proof (join_best_spec done 0 trade_result_default) as Hspec.
  destruct (join_best done 0 trade_result_default) as [bi b].
  destruct Hspec as [Hsrc [_ Hall]].
  destruct (Z.ltb_spec 0 (tres_amount_out b)) as [Hpos|Hnp]; simpl.
  - destruct Hsrc as [Heq|Hin]; [injection Heq as _ ->; simpl in Hpos; lia|].
    subst done. apply in_map_iff in Hin as [i [Heq Hi]]. injection Heq as -> Hget.
    destruct (spawned_indices_spec paths bi (Hord bi Hi)) as [p [Hn [Hnth Hne]]].
    rewrite Hn. simpl. rewrite Hnth in Hget.
    exists bi, b. split; [exact Hi|]. split; [exact Hn|]. split; [exact Hne|].
    split; [exact Hget|]. split; [reflexivity|]. split; [exact Hpos|].
    intros j t' Hj Ht. exact (Hall j t' (Hdone j t' Hj Ht)).
  - split; [reflexivity|]. intros j t' Hj Ht. pose proof (Hall j t' (Hdone j t' Hj Ht)). lia.
Qed.
End FindBestProofs.

Lemma find_best_path_exact_in_best_witness :
  (forall i, In i [2%nat; 0%nat] -> In i (spawned_indices sample_paths)) /\
  find_best_path_exact_in sample_get_trade_result sample_paths 100 Swap [2%nat; 0%nat] =
    Ok (mkPathTradeResult (mkPath [leg 2 USDC SUI_COIN_TYPE]) 100 102 1 0) /\
  exists i t, In i [2%nat; 0%nat] /\ nth_error sample_paths i = Some (mkPath [leg 2 USDC SUI_COIN_TYPE]) /\
    sample_get_trade_result (mkPath [leg 2 USDC SUI_COIN_TYPE]) 100 Swap = Ok t /\
    tres_amount_out t = 102.
Proof.
  assert (Hh : forall i, In i [2%nat; 0%nat] -> In i (spawned_indices sample_paths)).
  { intros i [<-|[<-|[]]]; vm_compute; auto. }
  assert (Hr : find_best_path_exact_in sample_get_trade_result sample_paths 100 Swap [2%nat; 0%nat] =
               Ok (mkPathTradeResult (mkPath [leg 2 USDC SUI_COIN_TYPE]) 100 102 1 0))
    by (vm_compute; reflexivity).
  split; [exact Hh|]. split; [exact Hr|].
  pose proof (find_best_path_exact_in_best sample_get_trade_result sample_paths 100 Swap
                [2%nat; 0%nat] Hh) as H.
  rewrite Hr in H. destruct H as [i [t [Hi [Hn [_ [Ht [Heq _]]]]]]].
  exists i, t. split; [exact Hi|]. split; [exact Hn|]. split; [exact Ht|].
  injection Heq as Ha _ _. symmetry. exact Ha.
Defined.

(** ** Trial routes *)

Lemma trade_paths_in :
  forall buy pool_id sells q,
    In q (trade_paths buy pool_id sells) ->
    exists sell, In sell sells /\ is_disjoint buy sell = true /\
      (contains_pool buy pool_id || contains_pool sell pool_id) = true /\
      q = mkPath (path buy ++ path sell).
Proof.
  intros buy pool_id sells q Hq. unfold trade_paths in Hq.
  apply list_elem_of_In, list_elem_of_omap in Hq as [sell [Hs Hf]].
  apply list_elem_of_In in Hs.
  destruct (is_disjoint buy sell && (contains_pool buy pool_id || contains_pool sell pool_id)) eqn:Hc;
    [|discriminate].
  apply andb_true_iff in Hc as [Hd Hp]. injection Hf as <-.
  exists sell. repeat split; assumption.
Qed.

(** X8: when the best-path search returns a path from the list it is
    given, a successful [trial] returns either [TrialResult::default()]
    (no profit) or a result for [ctx.coin_type] and [amount_in] whose
    route is a buy path followed by a sell path of the context, the two
    share no pool, one of them contains the trigger pool, and whose
    profit is the positive profit of that route cast to [u64]. *)
Theorem trial_result_route :
  forall find_best ctx amount_in tr,
    (forall ps a tt r, find_best ps a tt = Ok r -> In (ptr_path r) ps) ->
    trial find_best ctx amount_in = Ok tr ->
    tr = trial_result_default \/
    exists buy sell r p,
      In buy (buy_paths ctx) /\ In sell (sell_paths ctx) /\
      is_disjoint buy sell = true /\
      (contains_pool buy (ctx_pool_id ctx) || contains_pool sell (ctx_pool_id ctx)) = true /\
      ptr_path r = mkPath (path buy ++ path sell) /\
      profit r = Some p /\ 0 < p /\
      tr = mkTrialResult (ctx_coin_type ctx) amount_in (p mod 2 ^ 64) (ptr_path r) (ptr_cache_misses r).
Proof.
  intros find_best ctx amount_in tr Hfb H. unfold trial in H.
  destruct (find_best (buy_paths ctx) amount_in Swap) as [rb|e] eqn:Hb; [|discriminate].
  destruct (trade_paths (ptr_path rb) (ctx_pool_id ctx) (sell_paths ctx)) as [|q qs] eqn:Htp;
    [discriminate|].
  rewrite <- Htp in H.
  destruct (find_best (trade_paths (ptr_path rb) (ctx_pool_id ctx) (sell_paths ctx)) amount_in Flashloan)
    as [r|e] eqn:Hr; [|discriminate].
  destruct (profit r) as [p|] eqn:Hp; [|discriminate].
  destruct (Z.leb_spec p 0) as [Hle|Hgt].
  - injection H as <-. left. reflexivity.
  - injection H as <-. right.
    destruct (trade_paths_in _ _ _ _ (Hfb _ _ _ _ Hr)) as [sell [Hs [Hd [Hpool Hpath]]]].
    exists (ptr_path rb), sell, r, p.
    split; [exact (Hfb _ _ _ _ Hb)|]. repeat split; assumption.
Qed.

Lemma trial_result_route_witness :
  (forall ps a tt r, sample_find_best ps a tt = Ok r -> In (ptr_path r) ps) /\
  trial sample_find_best sample_pool_ctx 100 =
    Ok (mkTrialResult USDC 100 9 (mkPath [leg 1 SUI_COIN_TYPE USDC; leg 2 USDC SUI_COIN_TYPE]) 0) /\
  exists buy sell, In buy (buy_paths sample_pool_ctx) /\ In sell (sell_paths sample_pool_ctx) /\
    mkPath [leg 1 SUI_COIN_TYPE USDC; leg 2 USDC SUI_COIN_TYPE] = mkPath (path buy ++ path sell).
Proof.
  assert (Hh : forall ps a tt r, sample_find_best ps a tt = Ok r -> In (ptr_path r) ps).
  { intros ps a tt r H. destruct ps as [|p ps]; simpl in H; [discriminate|].
    injection H as <-. left. reflexivity. }
  assert (Ht : trial sample_find_best sample_pool_ctx 100 =
    Ok (mkTrialResult USDC 100 9 (mkPath [leg 1 SUI_COIN_TYPE USDC; leg 2 USDC SUI_COIN_TYPE]) 0))
    by (vm_compute; reflexivity).
  split; [exact Hh|]. split; [exact Ht|].
  destruct (trial_result_route sample_find_best sample_pool_ctx 100 _ Hh Ht) as [Hd | H];
    [discriminate Hd|].
  destruct H as [buy [sell [r [p [Hb [Hs [_ [_ [Hpath [_ [_ Heq]]]]]]]]]]].
  exists buy, sell. split; [exact Hb|]. split; [exact Hs|].
  injection Heq as _ Hr _. rewrite Hr. exact Hpath.
Defined.

(** ** Sell routes *)

Section SellPathProofs.
Variable find_dexes : string -> option string -> result (list Dex).
Variable liquidity : Dex -> Z.

Lemma insert_by_liquidity_in :
  forall d l x, In x (insert_by_liquidity liquidity d l) -> x = d \/ In x l.
Proof.
  intros d l x. induction l as [|y l IH]; simpl.
  - intros [<-|[]]. left. reflexivity.
  - destruct (liquidity y <? liquidity d); simpl.
    + intros [<-|H]; [left; reflexivity | right; exact H].
    + intros [<-|H]; [right; left; reflexivity|]. destruct (IH H) as [->|H']; [left; reflexivity|].
      right; right; exact H'.
Qed.

Lemma sort_by_liquidity_desc_in :
  forall l x, In x (sort_by_liquidity_desc liquidity l) -> In x l.
Proof.
  unfold sort_by_liquidity_desc.
  assert (G : forall l acc x, In x (fold_left (fun acc d => insert_by_liquidity liquidity d acc) l acc) ->
                In x acc \/ In x l).
  { induction l as [|d l IH]; intros acc x H; simpl in H; [left; exact H|].
    destruct (IH _ _ H) as [H1|H1]; [|right; right; exact H1].
    destruct (insert_by_liquidity_in d acc x H1) as [->|H2]; [right; left; reflexivity | left; exact H2]. }
  intros l x H. destruct (G l [] x H) as [[]|H']. exact H'.
Qed.

Lemma firstn_in_list {A : Type} : forall n (l : list A) x, In x (firstn n l) -> In x l.
Proof.
  induction n as [|n IH]; intros l x H; [destruct H|].
  destruct l as [|y l]; [destruct H|]. destruct H as [<-|H]; [left; reflexivity | right; exact (IH l x H)].
Qed.

Lemma visit_coin_hops :
  forall b st coin_type,
    (forall c ds, all_hops st !! c = Some ds -> forall d, In d ds ->
       (exists cout dsf, find_dexes c cout = Ok dsf /\ In d dsf) /\ MIN_LIQUIDITY <= liquidity d) ->
    forall c ds, all_hops (visit_coin find_dexes liquidity b st coin_type) !! c = Some ds -> forall d, In d ds ->
       (exists cout dsf, find_dexes c cout = Ok dsf /\ In d dsf) /\ MIN_LIQUIDITY <= liquidity d.
Proof.
  intros b st coin_type Hok c ds. unfold visit_coin.
  destruct (_ || _); [apply Hok|].
  match goal with |- context [find_dexes coin_type ?co] =>
    remember co as cout eqn:Hco; destruct (find_dexes coin_type cout) as [dexes|e] eqn:Hf; [|apply Hok] end.
  match goal with |- context [match ?D with [] => _ | _ :: _ => _ end] =>
    assert (HD : forall d, In d D -> In d dexes /\ MIN_LIQUIDITY <= liquidity d);
    [|destruct D as [|d0 ds0] eqn:HDe; [apply Hok|]] end.
  { intros d Hd. destruct (_ <? _)%nat.
    - apply firstn_in_list, sort_by_liquidity_desc_in in Hd.
      apply filter_In in Hd as [Hd _]. apply filter_In in Hd as [Hd Hl]. apply Z.leb_le in Hl. tauto.
    - apply filter_In in Hd as [Hd Hl]. apply Z.leb_le in Hl. tauto. }
  destruct (push_out_coins _ _ _ _) as [ns vd]. simpl.
  destruct (decide (coin_type = c)) as [<-|Hne].
  - rewrite lookup_insert_eq. intros H. injection H as <-. intros d Hd.
    destruct (HD d Hd) as [Hin Hl]. split; [|exact Hl]. exists cout, dexes. split; assumption.
  - rewrite lookup_insert_ne by exact Hne. apply Hok.
Qed.

Lemma hop_loop_hops :
  forall ks stack st,
    (forall c ds, all_hops st !! c = Some ds -> forall d, In d ds ->
       (exists cout dsf, find_dexes c cout = Ok dsf /\ In d dsf) /\ MIN_LIQUIDITY <= liquidity d) ->
    forall c ds, all_hops (hop_loop find_dexes liquidity ks stack st) !! c = Some ds -> forall d, In d ds ->
       (exists cout dsf, find_dexes c cout = Ok dsf /\ In d dsf) /\ MIN_LIQUIDITY <= liquidity d.
Proof.
  assert (Hfold : forall b l st,
    (forall c ds, all_hops st !! c = Some ds -> forall d, In d ds ->
       (exists cout dsf, find_dexes c cout = Ok dsf /\ In d dsf) /\ MIN_LIQUIDITY <= liquidity d) ->
    forall c ds, all_hops (fold_left (visit_coin find_dexes liquidity b) l st) !! c = Some ds -> forall d, In d ds ->
       (exists cout dsf, find_dexes c cout = Ok dsf /\ In d dsf) /\ MIN_LIQUIDITY <= liquidity d).
  { intros b l. induction l as [|x l IH]; intros st Hok; simpl; [exact Hok|].
    apply IH. apply visit_coin_hops. exact Hok. }
  induction ks as [|k ks IH]; intros stack st Hok; cbn [hop_loop]; [exact Hok|]. cbv zeta.
  intros c ds H d Hd. destruct (Nat.eqb k (MAX_HOP_COUNT - 1)).
  - exact (Hfold _ _ (mkHopState (visited st) (visited_dexes st) (all_hops st) []) Hok c ds H d Hd).
  - exact (IH _ _ (Hfold _ _ (mkHopState (visited st) (visited_dexes st) (all_hops st) []) Hok)
             c ds H d Hd).
Qed.

Lemma dfs_go_routes :
  forall n c path hops,
    (forall c ds, hops !! c = Some ds -> forall d, In d ds ->
       (exists cout dsf, find_dexes c cout = Ok dsf /\ In d dsf) /\ MIN_LIQUIDITY <= liquidity d) ->
    (length path <= MAX_HOP_COUNT)%nat ->
    forall r, In r (dfs_go n c path hops) ->
      exists suf, r = path ++ suf /\ (length r <= MAX_HOP_COUNT)%nat /\
        route_from find_dexes liquidity c suf.
Proof.
  induction n as [|n IH]; intros c path hops Hok Hlen r Hr; cbn [dfs_go] in Hr.
  - destruct (is_native_coin c) eqn:Hn.
    + destruct Hr as [<-|[]]. exists []. rewrite app_nil_r. split; [reflexivity|]. split; [exact Hlen | exact Hn].
    + destruct (MAX_HOP_COUNT <=? length path)%nat; simpl in Hr; contradiction.
  - destruct (is_native_coin c) eqn:Hn.
    + destruct Hr as [<-|[]]. exists []. rewrite app_nil_r. split; [reflexivity|]. split; [exact Hlen | exact Hn].
    + destruct (Nat.leb_spec MAX_HOP_COUNT (length path)) as [Hge|Hlt]; [simpl in Hr; contradiction|].
      destruct (hops !! c) as [ds|] eqn:Hc; [|simpl in Hr; contradiction].
      apply in_flat_map in Hr as [dex [Hdex Hr]].
      assert (Hlen' : (length (path ++ [dex]) <= MAX_HOP_COUNT)%nat)
        by (rewrite length_app; simpl; lia).
      destruct (IH _ _ _ Hok Hlen' r Hr) as [suf [-> [Hl Hroute]]].
      exists (dex :: suf). rewrite <- app_assoc in Hl |- *. split; [reflexivity|]. split; [exact Hl|].
      destruct (Hok c ds Hc dex Hdex) as [Hfd Hliq]. simpl. repeat split; assumption.
Qed.

(** X9: [find_sell_paths] never fails: a failed [find_dexes] query is
    skipped. For the native coin it returns the single empty path; for any
    other coin every returned path has at most [MAX_HOP_COUNT] legs and is
    a route to the native coin: each leg was returned by [find_dexes] for
    the coin it is taken from, has at least [MIN_LIQUIDITY], and only the
    last leg reaches the native coin. *)
Theorem find_sell_paths_routes :
  forall coin_in_type,
    exists paths, find_sell_paths find_dexes liquidity coin_in_type = Ok paths /\
      (is_native_coin coin_in_type = true -> paths = [mkPath []]) /\
      forall p, In p paths ->
        (length (path p) <= MAX_HOP_COUNT)%nat /\ route_from find_dexes liquidity coin_in_type (path p).
Proof.
  intros coin_in_type. unfold find_sell_paths.
  destruct (is_native_coin coin_in_type) eqn:Hn.
  - eexists. split; [reflexivity|]. split; [reflexivity|].
    intros p [<-|[]]. split; [apply Nat.le_0_l | exact Hn].
  - eexists. split; [reflexivity|]. split; [discriminate|].
    intros p Hp. apply in_map_iff in Hp as [r [<- Hr]]. simpl.
    assert (Hok := hop_loop_hops (seq 0 MAX_HOP_COUNT) [coin_in_type] (mkHopState ∅ ∅ ∅ [])).
    unfold dfs in Hr.
    destruct (dfs_go_routes (S MAX_HOP_COUNT) coin_in_type [] _ (Hok ltac:(intros c ds H; simpl in H; rewrite lookup_empty in H; discriminate))
                (Nat.le_0_l _) r Hr) as [suf [-> [Hl Hroute]]].
    split; [exact Hl | exact Hroute].
Qed.
End SellPathProofs.

(** ** Opportunity search *)

Section SearchProofs.
Variable trial_fn : Z -> result TrialResult.

Lemma grid_search_spec :
  forall done cm mx,
    let '(cm', mx') := grid_search done cm mx in
    (mx' = mx \/ In (Ok mx') done) /\ tr_profit mx <= tr_profit mx' /\ cm <= cm' /\
    forall r, In (Ok r) done -> tr_profit r <= tr_profit mx' /\ tr_cache_misses r <= cm'.
Proof.
  induction done as [|x rest IH]; intros cm mx; simpl.
  - split; [left; reflexivity|]. split; [lia|]. split; [lia | intros _ []].
  - destruct x as [r|e].
    + match goal with |- context [grid_search rest ?c ?m] =>
        specialize (IH c m); destruct (grid_search rest c m) as [cm' mx'] eqn:Hg end.
      destruct IH as [Hsrc [Hp [Hc Hall]]].
      split; [|split; [|split]].
      * destruct Hsrc as [Heq|Hin]; [|right; right; exact Hin].
        destruct (Z.ltb_spec (tr_profit mx) (tr_profit r)); [right; left; f_equal; symmetry; exact Heq|].
        left; exact Heq.
      * destruct (Z.ltb_spec (tr_profit mx) (tr_profit r)); lia.
      * destruct (Z.ltb_spec cm (tr_cache_misses r)); lia.
      * intros r' [Heq|Hin]; [|exact (Hall r' Hin)]. injection Heq as ->.
        destruct (Z.ltb_spec (tr_profit mx) r'.(tr_profit)); destruct (Z.ltb_spec cm (tr_cache_misses r')); lia.
    + specialize (IH cm mx). destruct (grid_search rest cm mx) as [cm' mx'].
      destruct IH as [Hsrc [Hp [Hc Hall]]]. split; [|split; [exact Hp|split; [exact Hc|]]].
      * destruct Hsrc as [Heq|Hin]; [left; exact Heq | right; right; exact Hin].
      * intros r' [Heq|Hin]; [discriminate | exact (Hall r' Hin)].
Qed.

Lemma grid_amounts_value :
  grid_amounts (seq 1 10) = Ok (List.map (fun i => 1000000 * 10 ^ Z.of_nat (S i)) (seq 0 10)).
Proof. vm_compute. reflexivity. Qed.

Lemma grid_nth :
  forall i, (i < 10)%nat ->
    nth i (List.map (fun i => 1000000 * 10 ^ Z.of_nat (S i)) (seq 0 10)) 0 = 1000000 * 10 ^ Z.of_nat (S i).
Proof.
  intros i Hi. do 10 (destruct i as [|i]; [reflexivity|]). lia.
Qed.

(** X10: in [find_opportunity], for any completion order of the grid
    trials (or a prefix of it), the search stage either yields a best
    result with positive profit that some [trial] returned, whose profit
    and the reported [cache_misses] are at least those of every completed
    grid trial; or it fails with "No profitable grid found" when no
    completed grid trial had a positive profit, or (with GSS) on the
    search's [min < max] assertion. *)
Theorem find_opportunity_search_best :
  forall use_gss order,
    (forall i, In i order -> (i < 10)%nat) ->
    match find_opportunity_search trial_fn use_gss order with
    | Ok (best, cache_misses) =>
        0 < tr_profit best /\ (exists a, trial_fn a = Ok best) /\
        forall i r, In i order -> trial_fn (1000000 * 10 ^ Z.of_nat (S i)) = Ok r ->
          tr_profit r <= tr_profit best /\ tr_cache_misses r <= cache_misses
    | Err e =>
        (e = "No profitable grid found" /\
         forall i r, In i order -> trial_fn (1000000 * 10 ^ Z.of_nat (S i)) = Ok r -> tr_profit r <= 0) \/
        (use_gss = true /\ e = "panic: assertion failed: min < max")
    end%string.
Proof.
  intros use_gss order Hord. unfold find_opportunity_search. rewrite grid_amounts_value.
  set (gs := List.map (fun i => 1000000 * 10 ^ Z.of_nat (S i)) (seq 0 10)).
  set (done := List.map (fun i => trial_fn (nth i gs 0)) order).
  assert (Hdone : forall i r, In i order -> trial_fn (1000000 * 10 ^ Z.of_nat (S i)) = Ok r -> In (Ok r) done).
  { intros i r Hi Hr. subst done. apply in_map_iff. exists i. split; [|exact Hi].
    subst gs. rewrite grid_nth by exact (Hord i Hi). exact Hr. }
  pose proof (grid_search_spec done 0 trial_result_default) as Hspec.
  destruct (grid_search done 0 trial_result_default) as [cm mx].
  destruct Hspec as [Hsrc [_ [_ Hall]]].
  destruct (Z.ltb_spec 0 (tr_profit mx)) as [Hpos|Hnp]; simpl.
  2:{ left. split; [reflexivity|]. intros i r Hi Hr. pose proof (proj1 (Hall r (Hdone i r Hi Hr))). lia. }
  assert (Hmx : exists a, trial_fn a = Ok mx).
  { destruct Hsrc as [->|Hin]; [simpl in Hpos; lia|].
    subst done. apply in_map_iff in Hin as [i [Hi _]]. exists (nth i gs 0). exact Hi. }
  destruct use_gss.
  - destruct (golden_section_search_maximize 64 TrialResult (trial_goal_evaluate trial_fn) _ _)
      as [[[mi mv] tres]|] eqn:Hgss; [|right; split; reflexivity].
    pose proof (gss_returns_evaluation _ _ _ _ _ _ _ _ Hgss) as Hev.
    unfold trial_goal_evaluate in Hev.
    cbv zeta. destruct (Z.ltb_spec cm (tr_cache_misses tres)) as [Hc|Hc];
      destruct (Z.ltb_spec (tr_profit mx) (tr_profit tres)) as [Hlt|Hge];
      (destruct (Z.ltb_spec 0 (tr_profit tres)) || idtac); simpl;
      try (destruct (Z.ltb_spec 0 (tr_profit mx)); [|lia]); simpl;
      try lia;
      (split; [lia|]; split;
       [ first [ exact Hmx
               | destruct (trial_fn mi) as [t0|e0] eqn:Htm;
                 injection Hev as _ <-; [exists mi; exact Htm | simpl in *; lia] ]
       | intros i r Hi Hr; destruct (Hall r (Hdone i r Hi Hr)); lia ]).
  - simpl. destruct (Z.ltb_spec 0 (tr_profit mx)) as [_|]; [|lia]. simpl.
    split; [exact Hpos|]. split; [exact Hmx|].
    intros i r Hi Hr. exact (Hall r (Hdone i r Hi Hr)).
Qed.
End SearchProofs.

Lemma find_opportunity_search_best_witness :
  (forall i, In i [0%nat; 1%nat; 2%nat] -> (i < 10)%nat) /\
  exists best cm, find_opportunity_search sample_trial_fn true [0%nat; 1%nat; 2%nat] = Ok (best, cm) /\
    0 < tr_profit best /\ 1000 <= tr_profit best.
Proof.
  assert (Hh : forall i, In i [0%nat; 1%nat; 2%nat] -> (i < 10)%nat).
  { intros i [<-|[<-|[<-|[]]]]; lia. }
  split; [exact Hh|].
  pose proof (find_opportunity_search_best sample_trial_fn true _ Hh) as H.
  destruct (find_opportunity_search sample_trial_fn true [0%nat; 1%nat; 2%nat]) as [[b c]|e] eqn:E.
  - exists b, c. split; [reflexivity|]. destruct H as [Hpos [_ Hall]]. split; [exact Hpos|].
    exact (proj1 (Hall 1%nat _ ltac:(right; left; reflexivity) eq_refl)).
  - vm_compute in E. discriminate E.
Defined.

Section DispatchProofs.
Context {SimulateCtx : Type}.
Variables (pop_time : nat -> Z) (max_recent_arbs : nat).

Lemma remove_first_length :
  forall c l, (length (remove_first c l) <= length l)%nat.
Proof.
  intros c l. induction l as [|x l IH]; simpl; [lia|].
  destruct (String.eqb x c); simpl; lia.
Qed.

Lemma fold_remove_first_length :
  forall cs l, (length (fold_left (fun r coin => remove_first coin r) cs l) <= length l)%nat.
Proof.
  induction cs as [|c cs IH]; intros l; simpl; [lia|].
  specialize (IH (remove_first c l)). pose proof (remove_first_length c l). lia.
Qed.

Lemma send_loop_spec :
  forall n i (s : ArbCache SimulateCtx) recent sent s1 recent1,
    (length recent <= max_recent_arbs)%nat ->
    send_loop SimulateCtx pop_time max_recent_arbs n i s recent = (sent, s1, recent1) ->
    (length sent <= n)%nat /\ NoDup (List.map (item_coin SimulateCtx) sent) /\
    (forall item, In item sent ->
       exists e, map SimulateCtx s !! item_coin SimulateCtx item = Some e /\
         item_tx_digest SimulateCtx item = entry_digest SimulateCtx e /\
         item_sim_ctx SimulateCtx item = entry_sim_ctx SimulateCtx e /\
         item_source SimulateCtx item = entry_source SimulateCtx e /\
         map SimulateCtx s1 !! item_coin SimulateCtx item = None) /\
    (length recent1 <= max_recent_arbs)%nat /\
    (forall c e, map SimulateCtx s1 !! c = Some e -> map SimulateCtx s !! c = Some e).
Proof.
  induction n as [|n IH]; intros i s recent sent s1 recent1 Hlen H; simpl in H.
  - injection H as <- <- <-. simpl. repeat split; [lia|constructor|intros _ []|exact Hlen|auto].
  - unfold pop_one in H.
    pose proof (pop_one_loop_sub (length (heap SimulateCtx s)) (pop_time i) s) as Hsub0.
    destruct (pop_one_loop SimulateCtx (length (heap SimulateCtx s)) (pop_time i) s)
      as [[item|] s'] eqn:Hp.
    + destruct (pop_one_loop_returns _ _ _ _ _ Hp)
        as [e [He [_ [Hd [Hx [Hsrc Hgone]]]]]].
      simpl in Hsub0.
      destruct (_ || _).
      * match type of H with
        | context [send_loop _ _ _ n (S i) s' ?r] =>
            destruct (send_loop SimulateCtx pop_time max_recent_arbs n (S i) s' r)
              as [[sent' s1'] r'] eqn:Hl;
            assert (Hr : (length r <= max_recent_arbs)%nat)
        end.
        { rewrite length_app. simpl.
          destruct (Nat.ltb_spec max_recent_arbs (length recent + 1)) as [Hgt|Hle].
          - destruct (recent ++ [item_coin SimulateCtx item]) eqn:Ha;
              [apply (f_equal (@length string)) in Ha; rewrite length_app in Ha; simpl in Ha; lia|].
            simpl. apply (f_equal (@length string)) in Ha. rewrite length_app in Ha.
            simpl in Ha. lia.
          - rewrite length_app. simpl. exact Hle. }
        injection H as <- <- <-.
        destruct (IH (S i) s' _ sent' s1' r' Hr Hl) as [Hn [Hnd [Hin [Hrl Hsub]]]].
        split; [simpl; lia|]. split; [|split; [|split; [exact Hrl|]]].
        -- simpl. constructor; [|exact Hnd].
           intros Hc%list_elem_of_In. apply in_map_iff in Hc as [it [Heq Hit]].
           destruct (Hin it Hit) as [e1 [He1 _]]. rewrite Heq, Hgone in He1. discriminate.
        -- intros it [<-|Hit].
           ++ exists e. repeat split; try assumption.
              destruct (map SimulateCtx s1' !! item_coin SimulateCtx item) as [e1|] eqn:He1; [|reflexivity].
              apply Hsub in He1. rewrite Hgone in He1. discriminate.
           ++ destruct (Hin it Hit) as [e1 [He1 Hrest]]. exists e1. split; [|exact Hrest].
              exact (Hsub0 _ _ He1).
        -- intros c e1 He1. exact (Hsub0 _ _ (Hsub c e1 He1)).
      * destruct (IH (S i) s' recent sent s1 recent1 Hlen H) as [Hn [Hnd [Hin [Hrl Hsub]]]].
        split; [lia|]. split; [exact Hnd|]. split; [|split; [exact Hrl|]].
        -- intros it Hit. destruct (Hin it Hit) as [e1 [He1 Hrest]]. exists e1.
           split; [exact (Hsub0 _ _ He1)|exact Hrest].
        -- intros c e1 He1. exact (Hsub0 _ _ (Hsub c e1 He1)).
    + injection H as <- <- <-. simpl in Hsub0.
      repeat split; [simpl; lia|constructor|intros _ []|exact Hlen|exact Hsub0].
Qed.

(** X11: [process_event] sends at most [10 - channel_len] items (none when the
    channel already holds 10 or more), never the same coin twice; every
    item sent carries the digest, context and source of its coin's entry
    in the cache before the dispatch, and that entry is gone from the cache
    afterwards; [recent_arbs] stays within [max_recent_arbs]. *)
Lemma dispatch_sends_cached_entries :
  forall channel_len now (s : ArbCache SimulateCtx) recent sent s' recent',
    (length recent <= max_recent_arbs)%nat ->
    dispatch SimulateCtx pop_time max_recent_arbs channel_len now s recent = (sent, s', recent') ->
    (length sent <= 10 - channel_len)%nat /\ NoDup (List.map (item_coin SimulateCtx) sent) /\
    (forall item, In item sent ->
       exists e, map SimulateCtx s !! item_coin SimulateCtx item = Some e /\
         item_tx_digest SimulateCtx item = entry_digest SimulateCtx e /\
         item_sim_ctx SimulateCtx item = entry_sim_ctx SimulateCtx e /\
         item_source SimulateCtx item = entry_source SimulateCtx e /\
         map SimulateCtx s' !! item_coin SimulateCtx item = None) /\
    (length recent' <= max_recent_arbs)%nat.
Proof.
  intros channel_len now s recent sent s' recent' Hlen H. unfold dispatch in H.
  destruct (if (channel_len <? 10)%nat
            then send_loop SimulateCtx pop_time max_recent_arbs (10 - channel_len) 0 s recent
            else ([], s, recent)) as [[sent1 s1] r1] eqn:Hs.
  assert (Hspec : (length sent1 <= 10 - channel_len)%nat /\
    NoDup (List.map (item_coin SimulateCtx) sent1) /\
    (forall item, In item sent1 ->
       exists e, map SimulateCtx s !! item_coin SimulateCtx item = Some e /\
         item_tx_digest SimulateCtx item = entry_digest SimulateCtx e /\
         item_sim_ctx SimulateCtx item = entry_sim_ctx SimulateCtx e /\
         item_source SimulateCtx item = entry_source SimulateCtx e /\
         map SimulateCtx s1 !! item_coin SimulateCtx item = None) /\
    (length r1 <= max_recent_arbs)%nat).
  { destruct (Nat.ltb_spec channel_len 10).
    - destruct (send_loop_spec _ _ _ _ _ _ _ Hlen Hs) as [Hn [Hnd [Hin [Hr _]]]].
      repeat split; assumption.
    - injection Hs as <- <- <-. repeat split; [simpl; lia|constructor|intros _ []|exact Hlen]. }
  unfold remove_expired in H.
  pose proof (remove_expired_loop_sub (length (heap SimulateCtx s1)) now s1) as Hsub.
  destruct (remove_expired_loop SimulateCtx (length (heap SimulateCtx s1)) now s1) as [cs s2] eqn:Hr.
  injection H as <- <- <-. simpl in Hsub.
  destruct Hspec as [Hn [Hnd [Hin Hrl]]].
  split; [exact Hn|]. split; [exact Hnd|]. split.
  - intros it Hit. destruct (Hin it Hit) as [e [He [Hd [Hx [Hsrc Hgone]]]]].
    exists e. repeat split; try assumption.
    destruct (map SimulateCtx s2 !! item_coin SimulateCtx it) as [e1|] eqn:He1; [|reflexivity].
    apply Hsub in He1. rewrite Hgone in He1. discriminate.
  - pose proof (fold_remove_first_length cs r1). lia.
Qed.
End DispatchProofs.

Lemma dispatch_sends_cached_entries_witness :
  exists s, run_ops unit (new_cache unit 5000) sample_ops = Some s /\
    dispatch unit (fun _ => 5005) 1 8 5005 s [] =
      ([mkArbItem unit "0xdba3::usdc::USDC" (Some 7%Z) [4%Z] tt Public],
       mkArbCache unit ∅ [] 2 5000, ["0xdba3::usdc::USDC"]) /\
    (length [mkArbItem unit "0xdba3::usdc::USDC" (Some 7%Z) [4%Z] tt Public] <= 10 - 8)%nat /\
    (length ["0xdba3::usdc::USDC"] <= 1)%nat.
Proof.
  eexists. split; [vm_compute; reflexivity|].
  match goal with
  | |- dispatch _ _ _ _ _ ?s _ = _ /\ _ =>
      assert (Hd : dispatch unit (fun _ => 5005) 1 8 5005 s [] =
        ([mkArbItem unit "0xdba3::usdc::USDC" (Some 7%Z) [4%Z] tt Public],
         mkArbCache unit ∅ [] 2 5000, ["0xdba3::usdc::USDC"])) by (vm_compute; reflexivity);
      destruct (dispatch_sends_cached_entries (fun _ => 5005) 1 8 5005 s [] _ _ _
                  ltac:(simpl; lia) Hd) as [Hn [_ [_ Hr]]]
  end.
  split; [exact Hd|]. split; [exact Hn|exact Hr].
Defined.
